(** * rbac-go: role chains, the access controller and its authorizers

    A shallow embedding of [rbac.go].  Go maps of the shape
    [map[string]map[string]bool] only ever store [true], so the inner maps
    are finite sets of strings and the outer ones finite maps.  Early
    returns with an error are threaded through a small result monad. *)

From stdpp Require Import gmap strings list.

Set Warnings "-clear-no-such-hyp".

Local Open Scope string_scope.
Local Open Scope list_scope.
Local Open Scope stdpp_scope.

(** ** Roles and role chains *)

(** [type Role struct { Id string; Permissions []string }] *)
Record Role := mkRole {
  Id : string;
  Permissions : list string
}.

(** [type RoleChain struct { name string; roles []*Role; permissions []string }] *)
Record RoleChain := mkRoleChain {
  name : string;
  roles : list Role;
  permissions : list string
}.

(** [func Chain(name string) *RoleChain] *)
Definition Chain (name : string) : RoleChain :=
  {| name := name; roles := []; permissions := [] |}.

(** [func (c *RoleChain) Add(id string, permissions []string) *RoleChain].
    The receiver is mutated and returned; here the updated chain is the
    result.  [append] may reuse the backing array of [c.permissions], but it
    only writes past the length of the longest slice handed out so far, so
    the slices held by earlier roles keep their contents. *)
Definition Add (id : string) (perms : list string) (c : RoleChain) : RoleChain :=
  let extendedPermissions := permissions c ++ perms in
  {| name := name c;
     roles := roles c ++ [ {| Id := id; Permissions := extendedPermissions |} ];
     permissions := extendedPermissions |}.

(** A chain as a caller outside the package can build it: [Chain(name)]
    followed by a sequence of [Add(id, permissions)] calls. *)
Definition build (nm : string) (decls : list (string * list string)) : RoleChain :=
  foldl (λ c d, Add d.1 d.2 c) (Chain nm) decls.

(** ** The access controller *)

(** [type Rbac struct] with its three lookup tables. *)
Record Rbac := mkRbac {
  permissionToRoleSet : gmap string (gset string);
  chainToRoleIdSet : gmap string (gset string);
  roleToPermissionSet : gmap string (gset string)
}.

(** Reading [m[k]] on a Go map yields the zero value, a nil inner map,
    when [k] is absent; a nil map has no keys. *)
Definition at_key (m : gmap string (gset string)) (k : string) : gset string :=
  default ∅ (m !! k).

(** Functions that may return early with an error. *)
Inductive result (A : Type) : Type :=
  | Ok (a : A)
  | Error (msg : string).
Arguments Ok {A} a.
Arguments Error {A} msg.

(** A [for ... range] loop whose body may return an error. *)
Fixpoint forM {A S : Type} (body : S → A → result S) (l : list A) (s : S) : result S :=
  match l with
  | [] => Ok s
  | x :: l' =>
      match body s x with
      | Ok s' => forM body l' s'
      | Error e => Error e
      end
  end.

(** [chain.name + "." + role.Id] *)
Definition flat_name (chainName roleId : string) : string :=
  chainName +:+ "." +:+ roleId.

(** Body of the innermost loop of [NewRbac], over [role.Permissions]. *)
Definition add_permission (roleName : string) (st : Rbac) (permission : string) : result Rbac :=
  let p2r :=
    if decide (is_Some (permissionToRoleSet st !! permission))
    then permissionToRoleSet st
    else <[permission := ∅]> (permissionToRoleSet st) in
  if decide (roleName ∈ at_key p2r permission)
  then Error ("duplicate permission " +:+ permission +:+ " in role " +:+ roleName)
  else Ok {| permissionToRoleSet :=
               <[permission := {[roleName]} ∪ at_key p2r permission]> p2r;
             chainToRoleIdSet := chainToRoleIdSet st;
             roleToPermissionSet :=
               <[roleName := {[permission]} ∪ at_key (roleToPermissionSet st) roleName]>
                 (roleToPermissionSet st) |}.

(** Body of the loop over [chain.roles]. *)
Definition add_role (chainName : string) (st : Rbac) (role : Role) : result Rbac :=
  let c2r := <[chainName := {[Id role]} ∪ at_key (chainToRoleIdSet st) chainName]>
               (chainToRoleIdSet st) in
  let roleName := flat_name chainName (Id role) in
  if decide (is_Some (roleToPermissionSet st !! roleName))
  then Error ("duplicate role " +:+ roleName)
  else forM (add_permission roleName) (Permissions role)
         {| permissionToRoleSet := permissionToRoleSet st;
            chainToRoleIdSet := c2r;
            roleToPermissionSet := <[roleName := ∅]> (roleToPermissionSet st) |}.

(** Body of the loop over [roleChains]. *)
Definition add_chain (st : Rbac) (chain : RoleChain) : result Rbac :=
  forM (add_role (name chain)) (roles chain)
    {| permissionToRoleSet := permissionToRoleSet st;
       chainToRoleIdSet := <[name chain := ∅]> (chainToRoleIdSet st);
       roleToPermissionSet := roleToPermissionSet st |}.

Definition empty_rbac : Rbac :=
  {| permissionToRoleSet := ∅; chainToRoleIdSet := ∅; roleToPermissionSet := ∅ |}.

(** [func NewRbac(roleChains ...*RoleChain)] returns a pair of an [Rbac]
    pointer and an [error]; [None] stands for [nil] in either place.  The
    chains are values, that is, non-nil pointers: on a nil chain Go panics
    at [chain.name] and returns nothing. *)
Definition NewRbac (roleChains : list RoleChain) : option Rbac * option string :=
  if decide (length roleChains = 0)
  then (None, Some "no role chains provided")
  else match forM add_chain roleChains empty_rbac with
       | Ok r => (Some r, None)
       | Error e => (None, Some e)
       end.

(** [func (r *Rbac) ChainHasRoleId(chain string, roleId string) bool] *)
Definition ChainHasRoleId (r : Rbac) (chain roleId : string) : bool :=
  if decide (is_Some (chainToRoleIdSet r !! chain))
  then if decide (roleId ∈ at_key (chainToRoleIdSet r) chain) then true else false
  else false.

(** ** The authorizer *)

Module Authorizer.

(** [type Authorizer struct]: [roles] and [errors] are [sync.Map]s that
    only ever store [true], that is, concurrent sets of strings; [wg] is
    the counter of the [sync.WaitGroup]. *)
Record t := mk {
  rbac : Rbac;
  roles : gset string;
  wg : Z;
  errors : gset string
}.

(** [m.Store(key, true)] and [_, ok := m.Load(key)] on such a set. *)
Definition Store (key : string) (m : gset string) : gset string := {[key]} ∪ m.
Definition Load (key : string) (m : gset string) : bool := bool_decide (key ∈ m).

(** [func (a *Authorizer) Add(roles ...string)] *)
Definition Add (rs : list string) (a : t) : t :=
  foldl (λ a role, mk (rbac a) (Store role (roles a)) (wg a) (errors a)) a rs.

(** [func (r *Rbac) Authorizer(roles ...string) *Authorizer] *)
Definition Authorizer (r : Rbac) (rs : list string) : t :=
  Add rs (mk r ∅ 0 ∅).

(** [a.wg.Wait()] returns only when the counter is zero; [None] stands for
    a caller that stays blocked in the present state. *)
Definition Wait (a : t) : option unit :=
  if decide (wg a = 0%Z) then Some () else None.

(** [strings.Join(elems, sep)] *)
Fixpoint Join (elems : list string) (sep : string) : string :=
  match elems with
  | [] => ""
  | [x] => x
  | x :: rest => x +:+ sep +:+ Join rest sep
  end.

(** [func (a *Authorizer) Err() error].  [sync.Map.Range] visits every key
    once in an order it does not specify: [range] is that enumeration.  The
    inner option is the returned error, [None] for [nil], [Some msg] for an
    error whose text is [msg]. *)
Definition Err (range : gset string → list string) (a : t) : option (option string) :=
  Wait a ≫= λ _,
    let errs := range (errors a) in
    if decide (length errs = 0) then Some None
    else Some (Some (Join errs "; ")).

(** [func (a *Authorizer) HasPermission(permission string) bool].  The loop
    returns [true] at the first held role it meets. *)
Definition HasPermission (permission : string) (a : t) : option bool :=
  Wait a ≫= λ _,
    let rolesThatGiveAccess := at_key (permissionToRoleSet (rbac a)) permission in
    Some (existsb (λ role, Load role (roles a)) (elements rolesThatGiveAccess)).

(** [func (a *Authorizer) HasRole(role string) bool] *)
Definition HasRole (role : string) (a : t) : option bool :=
  Wait a ≫= λ _, Some (Load role (roles a)).

(** *** The goroutine started by [AddAsync] *)

(** What a call [f()] of the resolver does: it returns a list of roles
    together with an error ([None] for [nil], else its [Error()] text), or
    it never returns. *)
Inductive resolver :=
  | Returns (rs : list string) (err : option string)
  | Hangs.

(** The steps of the goroutine that touch the authorizer; each one is
    atomic, and steps of different goroutines interleave freely. *)
Inductive action :=
  | StoreError (msg : string)
  | StoreRole (role : string)
  | Done.

Global Instance action_eq_dec : EqDecision action.
Proof. solve_decision. Defined.

(** The body of the goroutine once [f()] has returned [rs, err]; the
    deferred [a.wg.Done()] runs last. *)
Definition body (r : Rbac) (rs : list string) (err : option string) : list action :=
  (match err with Some e => [StoreError e] | None => [] end)
  ++ flat_map (λ role,
       if decide (is_Some (roleToPermissionSet r !! role)) then []
       else [StoreError ("role " +:+ role +:+ " not allowed")]) rs
  ++ map StoreRole rs
  ++ [Done].

(** One action on the authorizer.  [wg.Done()] panics when the counter
    would become negative: [None]. *)
Definition exec (act : action) (a : t) : option t :=
  match act with
  | StoreError msg => Some (mk (rbac a) (roles a) (wg a) (Store msg (errors a)))
  | StoreRole role => Some (mk (rbac a) (Store role (roles a)) (wg a) (errors a))
  | Done =>
      if decide (wg a - 1 < 0)%Z then None
      else Some (mk (rbac a) (roles a) (wg a - 1) (errors a))
  end.

(** A goroutine is still inside [f()], or has a list of actions left; it
    has finished when that list is empty. *)
Inductive goroutine :=
  | Calling (f : resolver)
  | Running (todo : list action).

Global Instance resolver_eq_dec : EqDecision resolver.
Proof. solve_decision. Defined.

Global Instance goroutine_eq_dec : EqDecision goroutine.
Proof. solve_decision. Defined.

(** An authorizer together with the goroutines its [AddAsync] calls have
    started (their closures capture this authorizer and no other). *)
Record instance := mkInstance {
  obj : t;
  spawned : list goroutine
}.

(** [func (a *Authorizer) AddAsync(f func() ([]string, error))]:
    [a.wg.Add(1)], then [go func() { ... }()]. *)
Definition AddAsync (f : resolver) (i : instance) : instance :=
  {| obj := mk (rbac (obj i)) (roles (obj i)) (wg (obj i) + 1) (errors (obj i));
     spawned := spawned i ++ [Calling f] |}.

(** Goroutine number [k] of the instance takes its next step, if it has
    one. *)
Definition step_goroutine (k : nat) (i : instance) : option instance :=
  match spawned i !! k with
  | Some (Calling (Returns rs err)) =>
      Some {| obj := obj i;
              spawned := <[k := Running (body (rbac (obj i)) rs err)]> (spawned i) |}
  | Some (Running (act :: todo)) =>
      match exec act (obj i) with
      | Some a' => Some {| obj := a'; spawned := <[k := Running todo]> (spawned i) |}
      | None => None
      end
  | _ => None
  end.

(** *** A program using several authorizers *)

(** What can happen next: the program creates an authorizer, calls [Add] or
    [AddAsync] on authorizer number [i], or the scheduler lets goroutine [k]
    of authorizer [i] take a step.  A synchronous [Add] is one event: its
    stores are inserts into a set and commute with those of the
    goroutines. *)
Inductive event :=
  | ENew (r : Rbac) (rs : list string)
  | EAdd (i : nat) (rs : list string)
  | EAddAsync (i : nat) (f : resolver)
  | EStep (i k : nat).

Definition is_step (e : event) : bool :=
  match e with EStep _ _ => true | _ => false end.

Definition apply (e : event) (s : list instance) : option (list instance) :=
  match e with
  | ENew r rs => Some (s ++ [ {| obj := Authorizer r rs; spawned := [] |} ])
  | EAdd i rs =>
      match s !! i with
      | Some x => Some (<[i := {| obj := Add rs (obj x); spawned := spawned x |}]> s)
      | None => None
      end
  | EAddAsync i f =>
      match s !! i with
      | Some x => Some (<[i := AddAsync f x]> s)
      | None => None
      end
  | EStep i k =>
      match s !! i with
      | Some x =>
          match step_goroutine k x with
          | Some x' => Some (<[i := x']> s)
          | None => None
          end
      | None => None
      end
  end.

(** A run: the events in order, from a given state. *)
Fixpoint run (es : list event) (s : list instance) : option (list instance) :=
  match es with
  | [] => Some s
  | e :: es' =>
      match apply e s with
      | Some s' => run es' s'
      | None => None
      end
  end.

(** The same history with every [AddAsync] carried out on the spot, in
    program order, and nothing left to the scheduler: the reference the
    concurrent runs are compared with.  A resolver that hangs contributes
    nothing. *)
Definition run_body (todo : list action) (a : t) : t :=
  foldl (λ a act,
    match act with
    | StoreError msg => mk (rbac a) (roles a) (wg a) (Store msg (errors a))
    | StoreRole role => mk (rbac a) (Store role (roles a)) (wg a) (errors a)
    | Done => a
    end) a todo.

Definition AddSync (f : resolver) (a : t) : t :=
  match f with
  | Returns rs err => run_body (body (rbac a) rs err) a
  | Hangs => a
  end.

Definition apply_seq (e : event) (s : list t) : list t :=
  match e with
  | ENew r rs => s ++ [Authorizer r rs]
  | EAdd i rs => alter (Add rs) i s
  | EAddAsync i f => alter (AddSync f) i s
  | EStep _ _ => s
  end.

Definition run_seq (es : list event) (s : list t) : list t :=
  foldl (λ s e, apply_seq e s) s es.

(** What is still to come from a goroutine, and what it will store. *)
Definition remaining (r : Rbac) (g : goroutine) : list action :=
  match g with
  | Calling (Returns rs err) => body r rs err
  | Calling Hangs => []
  | Running todo => todo
  end.

Definition unfinished (g : goroutine) : bool :=
  match g with
  | Running [] => false
  | _ => true
  end.

Definition stored_roles (todo : list action) : gset string :=
  list_to_set (omap (λ act, match act with StoreRole r => Some r | _ => None end) todo).

Definition stored_errors (todo : list action) : gset string :=
  list_to_set (omap (λ act, match act with StoreError m => Some m | _ => None end) todo).

(** The authorizer as it will be once every goroutine that can finish has
    finished. *)
Definition settled (i : instance) : t :=
  mk (rbac (obj i))
     (roles (obj i) ∪ ⋃ ((λ g, stored_roles (remaining (rbac (obj i)) g)) <$> spawned i))
     0
     (errors (obj i) ∪ ⋃ ((λ g, stored_errors (remaining (rbac (obj i)) g)) <$> spawned i)).

(** [strings.Contains(s, substr)] as a proposition. *)
Definition Contains (s substr : string) : Prop :=
  ∃ pre post, s = pre +:+ substr +:+ post.

(** *** Notions used to state the properties of authorizers *)

(** The number of goroutines that have not finished. *)
Definition pending (l : list goroutine) : nat :=
  sum_list_with (λ g, if unfinished g then 1 else 0) l.

(** A list of actions still to run is empty, or ends with its only
    [Done]. *)
Definition well_bracketed (todo : list action) : Prop :=
  todo = [] ∨ ∃ pre, todo = pre ++ [Done] ∧ Done ∉ pre.

(** The counter of the wait group counts the goroutines that have not
    finished. *)
Definition consistent (x : instance) : Prop :=
  wg (obj x) = Z.of_nat (pending (spawned x))
  ∧ Forall (λ g, well_bracketed
                   (remaining (rbac (obj x)) g))
      (spawned x).

(** The messages that flag the roles the controller does not know. *)
Definition flags (r : Rbac) (rs : list string) : list action :=
  flat_map (λ role,
    if decide (is_Some (roleToPermissionSet r !! role)) then []
    else [StoreError ("role " +:+ role +:+ " not allowed")]) rs.

(** [a'] is [a] with possibly more roles and more errors. *)
Definition extends (a a' : t) : Prop :=
  rbac a' = rbac a ∧ roles a ⊆ roles a' ∧ errors a ⊆ errors a'.

(** The authorizer with some more roles and errors. *)
Definition bump (R E : gset string) (a : t) : t :=
  mk (rbac a) (R ∪ roles a) (wg a) (E ∪ errors a).

(** The calls a program makes, without the steps of the scheduler. *)
Definition calls (es : list event) : list event :=
  filter (λ e, is_step e = false) es.

(** The number of steps a goroutine still has to take. *)
Definition work (r : Rbac) (g : goroutine) : nat :=
  match g with
  | Calling (Returns rs err) => S (length (body r rs err))
  | Calling Hangs => 0
  | Running todo => length todo
  end.

Definition total_work (x : instance) : nat :=
  sum_list_with (work (rbac (obj x))) (spawned x).

End Authorizer.

(** ** Notions used to state the properties *)

(** Every role of every chain, in the order [NewRbac] visits them, under
    its flattened name. *)
Definition flat_roles (chains : list RoleChain) : list (string * list string) :=
  chains ≫= λ c, (λ r, (flat_name (name c) (Id r), Permissions r)) <$> roles c.

(** The two role tables hold exactly the roles of [done]. *)
Record indexed (done : list (string * list string)) (st : Rbac) : Prop := {
  indexed_r2p : ∀ rn perms,
    (rn, perms) ∈ done → roleToPermissionSet st !! rn = Some (list_to_set perms);
  indexed_dom : ∀ rn,
    is_Some (roleToPermissionSet st !! rn) → rn ∈ done.*1;
  indexed_p2r : ∀ p rn,
    rn ∈ at_key (permissionToRoleSet st) p ↔ ∃ perms, (rn, perms) ∈ done ∧ p ∈ perms
}.

Definition is_Error {A} (r : result A) : Prop := ∃ e, r = Error e.

(** A step of a loop of [NewRbac]: from tables that hold [done], round [x]
    loads the roles [key x] when their names are new and their permission
    lists free of repetitions, and fails otherwise; with new names the
    failure is the duplicate-permission one. *)
Definition loads_ok {A} (f : Rbac → A → result Rbac)
    (key : A → list (string * list string)) : Prop :=
  ∀ done st x,
    indexed done st → NoDup (done ++ key x).*1 → Forall (λ d, NoDup d.2) (key x) →
    ∃ st', f st x = Ok st' ∧ indexed (done ++ key x) st'.

Definition loads_err {A} (f : Rbac → A → result Rbac)
    (key : A → list (string * list string)) : Prop :=
  ∀ done st x,
    indexed done st → NoDup done.*1 →
    ¬ (NoDup (done ++ key x).*1 ∧ Forall (λ d, NoDup d.2) (key x)) →
    is_Error (f st x).

Definition loads_perm {A} (f : Rbac → A → result Rbac)
    (key : A → list (string * list string)) : Prop :=
  ∀ done st x,
    indexed done st → NoDup (done ++ key x).*1 →
    ¬ Forall (λ d, NoDup d.2) (key x) →
    ∃ p rn, f st x = Error ("duplicate permission " +:+ p +:+ " in role " +:+ rn).

Definition role_key (cn : string) (r : Role) : list (string * list string) :=
  [(flat_name cn (Id r), Permissions r)].

Definition chain_key (c : RoleChain) : list (string * list string) :=
  (λ r, (flat_name (name c) (Id r), Permissions r)) <$> roles c.

Definition well_formed (chains : list RoleChain) : Prop :=
  NoDup (flat_roles chains).*1 ∧ Forall (λ d, NoDup d.2) (flat_roles chains).

Definition has_duplicate {A} (l : list A) : Prop :=
  ∃ i j x, i ≠ j ∧ l !! i = Some x ∧ l !! j = Some x.

Definition role_ids (c : RoleChain) : gset string := list_to_set (Id <$> roles c).

(** The permissions declared by the first [n] [Add] calls of a chain. *)
Definition declared_upto (n : nat) (decls : list (string * list string)) (p : string) : Prop :=
  ∃ j d, j < n ∧ decls !! j = Some d ∧ p ∈ d.2.

(** The chains of the test file. *)
Definition authChain : RoleChain :=
  Add "Authenticated" ["create"] (Add "Unauthenticated" ["list"] (Chain "auth")).
Definition accountChain : RoleChain :=
  Add "Admin" ["update"; "delete"] (Add "Member" ["get"] (Chain "use.Account")).

(** The chain of section 8 of the specification, whose second role
    repeats a permission of the first. *)
Definition overlapChain : RoleChain :=
  Add "Admin" ["get"; "update"; "delete"] (Add "Member" ["get"] (Chain "use.Account")).

(** The controller of the test file. *)
Definition testRbac : Rbac :=
  match NewRbac [authChain; accountChain] with
  | (Some r, _) => r
  | _ => empty_rbac
  end.

(** Two chains of the same name with different role ids, and the
    controller [NewRbac] builds from them. *)
Definition sameNameChains : list RoleChain :=
  [Add "x" [] (Chain "a"); Add "y" [] (Chain "a")].

Definition sameNameRbac : Rbac :=
  match NewRbac sameNameChains with
  | (Some r, _) => r
  | _ => empty_rbac
  end.

(** The state a run ends in, and authorizer number [i] in it. *)
Definition outcome (es : list Authorizer.event) : list Authorizer.instance :=
  default [] (Authorizer.run es []).

Definition final (es : list Authorizer.event) (i : nat) : Authorizer.instance :=
  default {| Authorizer.obj := Authorizer.Authorizer empty_rbac [];
             Authorizer.spawned := [] |}
    (outcome es !! i).

(** A resolver that fails and returns a role all the same, scheduled on a
    fresh authorizer and run to its end. *)
Definition failing_run : list Authorizer.event :=
  [Authorizer.ENew testRbac [];
   Authorizer.EAddAsync 0 (Authorizer.Returns ["use.Account.Admin"] (Some "boom"));
   Authorizer.EStep 0 0; Authorizer.EStep 0 0; Authorizer.EStep 0 0;
   Authorizer.EStep 0 0].

(** A resolver that returns a role the controller does not know. *)
Definition ghost_run : list Authorizer.event :=
  [Authorizer.ENew testRbac [];
   Authorizer.EAddAsync 0 (Authorizer.Returns ["ghost"] None);
   Authorizer.EStep 0 0; Authorizer.EStep 0 0; Authorizer.EStep 0 0;
   Authorizer.EStep 0 0].

(** Two authorizers: the resolver of the second hangs, the one of the
    first returns and its goroutine runs to its end. *)
Definition two_run : list Authorizer.event :=
  [Authorizer.ENew testRbac []; Authorizer.ENew testRbac [];
   Authorizer.EAddAsync 1 Authorizer.Hangs;
   Authorizer.EAddAsync 0 (Authorizer.Returns ["use.Account.Member"] None);
   Authorizer.EStep 0 0; Authorizer.EStep 0 0; Authorizer.EStep 0 0].

(** The resolver of the test file, scheduled on a fresh authorizer and run
    to its end. *)
Definition member_run : list Authorizer.event :=
  [Authorizer.ENew testRbac [];
   Authorizer.EAddAsync 0 (Authorizer.Returns ["use.Account.Member"] None);
   Authorizer.EStep 0 0; Authorizer.EStep 0 0; Authorizer.EStep 0 0].

(** An authorizer that holds the member role, on its own. *)
Definition member_only : list Authorizer.instance :=
  [ {| Authorizer.obj := Authorizer.Authorizer testRbac ["use.Account.Member"];
       Authorizer.spawned := [] |} ].


(** * Properties *)

(** ** Chains *)

Lemma build_snoc nm decls d :
  build nm (decls ++ [d]) = Add d.1 d.2 (build nm decls).
Proof. unfold build. by rewrite foldl_app. Qed.

Lemma build_name nm decls : name (build nm decls) = nm.
Proof.
  induction decls as [|d decls IH] using rev_ind; [done|].
  by rewrite build_snoc.
Qed.

Lemma build_permissions nm decls :
  permissions (build nm decls) = concat decls.*2.
Proof.
  induction decls as [|d decls IH] using rev_ind; [done|].
  rewrite build_snoc, fmap_app, concat_app. simpl.
  by rewrite IH, app_nil_r.
Qed.

Lemma build_roles nm decls :
  roles (build nm decls) =
  imap (λ k d, {| Id := d.1; Permissions := concat (take (S k) decls).*2 |}) decls.
Proof.
  induction decls as [|d decls IH] using rev_ind; [done|].
  rewrite build_snoc, imap_app. simpl. rewrite IH, build_permissions.
  f_equal.
  - apply imap_ext. intros k x Hk. simpl. f_equal.
    rewrite take_app_le; [done|]. apply lookup_lt_Some in Hk. lia.
  - rewrite Nat.add_0_r. f_equal. f_equal.
    rewrite take_ge by (rewrite length_app; simpl; lia).
    by rewrite fmap_app, concat_app; simpl; rewrite app_nil_r.
Qed.

Lemma build_roles_lookup nm decls k id perms :
  decls !! k = Some (id, perms) →
  roles (build nm decls) !! k =
    Some {| Id := id; Permissions := concat (take (S k) decls).*2 |}.
Proof.
  intros Hk. rewrite build_roles, list_lookup_imap, Hk. done.
Qed.

(** ** Building the tables *)

Lemma at_key_insert m k v k' :
  at_key (<[k := v]> m) k' = if decide (k = k') then v else at_key m k'.
Proof.
  unfold at_key. rewrite lookup_insert. by repeat case_decide.
Qed.

Lemma at_key_Some m k v : m !! k = Some v → at_key m k = v.
Proof. unfold at_key. by intros ->. Qed.

Lemma at_key_None m k : m !! k = None → at_key m k = ∅.
Proof. unfold at_key. by intros ->. Qed.

Lemma indexed_known done st rn :
  indexed done st → rn ∈ done.*1 → is_Some (roleToPermissionSet st !! rn).
Proof.
  intros Hi ([rn' perms] & -> & Hin)%list_elem_of_fmap.
  simpl. rewrite (indexed_r2p _ _ Hi _ _ Hin). eauto.
Qed.

Lemma indexed_empty : indexed [] empty_rbac.
Proof.
  split; simpl.
  - intros ?? Hin. by apply elem_of_nil in Hin.
  - intros rn [? Hx]. by rewrite lookup_empty in Hx.
  - intros p rn. unfold at_key. rewrite lookup_empty. simpl. split.
    + set_solver.
    + intros (? & Hin & _). by apply elem_of_nil in Hin.
Qed.

Lemma ensure_key_at_key (m : gmap string (gset string)) p k :
  at_key (if decide (is_Some (m !! p)) then m else <[p := ∅]> m) k = at_key m k.
Proof.
  case_decide as Hs; [done|]. rewrite at_key_insert.
  case_decide; [subst|done].
  rewrite at_key_None; [done|]. by apply eq_None_not_Some.
Qed.

Lemma add_permission_dup done rn seen st p :
  indexed (done ++ [(rn, seen)]) st → p ∈ seen →
  add_permission rn st p =
    Error ("duplicate permission " +:+ p +:+ " in role " +:+ rn).
Proof.
  intros Hi Hp. unfold add_permission.
  rewrite decide_True; [done|].
  rewrite ensure_key_at_key. apply (indexed_p2r _ _ Hi).
  exists seen. split; [|done]. apply elem_of_app. right. by apply list_elem_of_singleton.
Qed.

Lemma add_permission_fresh done rn seen st p :
  indexed (done ++ [(rn, seen)]) st → rn ∉ done.*1 → p ∉ seen →
  ∃ st', add_permission rn st p = Ok st'
         ∧ indexed (done ++ [(rn, seen ++ [p])]) st'
         ∧ chainToRoleIdSet st' = chainToRoleIdSet st.
Proof.
  intros Hi Hrn Hp. unfold add_permission.
  assert (∀ perms, (rn, perms) ∈ done → False) as Hnew.
  { intros perms Hin. apply Hrn. apply list_elem_of_fmap. by exists (rn, perms). }
  rewrite decide_False; cycle 1.
  { rewrite ensure_key_at_key, (indexed_p2r _ _ Hi).
    intros (perms & [Hin|Hin]%elem_of_app & Hp').
    - by eapply Hnew.
    - apply list_elem_of_singleton in Hin. congruence. }
  eexists. split; [done|]. split; [|done]. split; simpl.
  - intros rn' perms [Hin|Hin]%elem_of_app.
    + rewrite lookup_insert_ne by (intros ->; by eapply Hnew).
      apply (indexed_r2p _ _ Hi). apply elem_of_app. by left.
    + apply list_elem_of_singleton in Hin. simplify_eq.
      rewrite lookup_insert_eq. f_equal.
      rewrite (at_key_Some _ _ (list_to_set seen)).
      * rewrite list_to_set_app_L. simpl.
        rewrite (right_id_L ∅ (∪)). apply (comm_L (∪)).
      * apply (indexed_r2p _ _ Hi). apply elem_of_app. right.
        by apply list_elem_of_singleton.
  - intros rn' Hs. rewrite fmap_app. simpl.
    rewrite lookup_insert in Hs. case_decide as Hd.
    + subst. apply elem_of_app. right. by apply list_elem_of_singleton.
    + apply (indexed_dom _ _ Hi) in Hs. by rewrite fmap_app in Hs.
  - intros p' rn'. rewrite at_key_insert. case_decide as Hd.
    + subst p'. rewrite elem_of_union, elem_of_singleton, ensure_key_at_key.
      rewrite (indexed_p2r _ _ Hi). split.
      * intros [->|(perms & [Hin|Hin]%elem_of_app & Hp')].
        -- exists (seen ++ [p]). split; apply elem_of_app; right;
             by apply list_elem_of_singleton.
        -- exists perms. split; [|done]. apply elem_of_app. by left.
        -- apply list_elem_of_singleton in Hin. simplify_eq.
           exists (seen ++ [p]). split; apply elem_of_app; right;
             by apply list_elem_of_singleton.
      * intros (perms & [Hin|Hin]%elem_of_app & Hp').
        -- right. exists perms. split; [|done]. apply elem_of_app. by left.
        -- apply list_elem_of_singleton in Hin. simplify_eq. by left.
    + rewrite ensure_key_at_key, (indexed_p2r _ _ Hi). split.
      * intros (perms & [Hin|Hin]%elem_of_app & Hp').
        -- exists perms. split; [|done]. apply elem_of_app. by left.
        -- apply list_elem_of_singleton in Hin. simplify_eq.
           exists (seen ++ [p]). split.
           ++ apply elem_of_app; right; by apply list_elem_of_singleton.
           ++ apply elem_of_app. by left.
      * intros (perms & [Hin|Hin]%elem_of_app & Hp').
        -- exists perms. split; [|done]. apply elem_of_app. by left.
        -- apply list_elem_of_singleton in Hin. simplify_eq.
           exists seen. split.
           ++ apply elem_of_app; right; by apply list_elem_of_singleton.
           ++ apply elem_of_app in Hp' as [?|Hx]; [done|].
              apply list_elem_of_singleton in Hx. congruence.
Qed.

Lemma forM_add_permission done rn st perms : ∀ seen,
  indexed (done ++ [(rn, seen)]) st → rn ∉ done.*1 →
  (NoDup (seen ++ perms) →
     ∃ st', forM (add_permission rn) perms st = Ok st'
            ∧ indexed (done ++ [(rn, seen ++ perms)]) st'
            ∧ chainToRoleIdSet st' = chainToRoleIdSet st)
  ∧ (NoDup seen → ¬ NoDup (seen ++ perms) →
     ∃ p, p ∈ perms ∧ forM (add_permission rn) perms st =
       Error ("duplicate permission " +:+ p +:+ " in role " +:+ rn)).
Proof.
  revert st. induction perms as [|p perms IH]; intros st seen Hi Hrn.
  - rewrite app_nil_r. split; [by eauto|]. by intros.
  - simpl. destruct (decide (p ∈ seen)) as [Hp|Hp].
    + rewrite (add_permission_dup _ _ _ _ _ Hi Hp). split.
      * intros Hnd. apply NoDup_app in Hnd as (_ & Hd & _).
        exfalso. apply (Hd p Hp). by left.
      * intros _ _. exists p. split; [by left|done].
    + destruct (add_permission_fresh _ _ _ _ _ Hi Hrn Hp) as (st' & -> & Hi' & Hc).
      destruct (IH st' (seen ++ [p]) Hi' Hrn) as [IH1 IH2].
      rewrite <-(assoc_L (++)) in IH1, IH2. simpl in IH1, IH2. split.
      * intros Hnd. destruct (IH1 Hnd) as (st'' & -> & ? & ?).
        exists st''. by rewrite <-Hc.
      * intros Hnd Hdup. destruct IH2 as (q & Hq & ->); [|done|].
        -- apply NoDup_app. split; [done|]. split; [|apply NoDup_singleton].
           intros x Hx ->%list_elem_of_singleton. done.
        -- exists q. split; [by right|done].
Qed.

Lemma indexed_open done rn st c2r :
  indexed done st → rn ∉ done.*1 →
  indexed (done ++ [(rn, [])])
    {| permissionToRoleSet := permissionToRoleSet st;
       chainToRoleIdSet := c2r;
       roleToPermissionSet := <[rn := ∅]> (roleToPermissionSet st) |}.
Proof.
  intros Hi Hrn.
  assert (∀ perms, (rn, perms) ∈ done → False) as Hnew.
  { intros perms Hin. apply Hrn. apply list_elem_of_fmap. by exists (rn, perms). }
  split; simpl.
  - intros rn' perms [Hin|Hin]%elem_of_app.
    + rewrite lookup_insert_ne by (intros ->; by eapply Hnew).
      by apply (indexed_r2p _ _ Hi).
    + apply list_elem_of_singleton in Hin. simplify_eq.
      by rewrite lookup_insert_eq.
  - intros rn' Hs. rewrite fmap_app. simpl.
    rewrite lookup_insert in Hs. case_decide as Hd.
    + subst. apply elem_of_app. right. by apply list_elem_of_singleton.
    + apply elem_of_app. left. by apply (indexed_dom _ _ Hi).
  - intros p rn'. rewrite (indexed_p2r _ _ Hi). split.
    + intros (perms & Hin & Hp). exists perms. split; [|done].
      apply elem_of_app. by left.
    + intros (perms & [Hin|Hin]%elem_of_app & Hp).
      * by exists perms.
      * apply list_elem_of_singleton in Hin. simplify_eq.
        by apply elem_of_nil in Hp.
Qed.

Lemma indexed_c2r done st c2r :
  indexed done st →
  indexed done
    {| permissionToRoleSet := permissionToRoleSet st;
       chainToRoleIdSet := c2r;
       roleToPermissionSet := roleToPermissionSet st |}.
Proof. intros [? ? ?]. by split. Qed.

(** What one visit of a role does to the tables. *)
Lemma add_role_spec done cn st role :
  indexed done st →
  (flat_name cn (Id role) ∈ done.*1 →
     add_role cn st role = Error ("duplicate role " +:+ flat_name cn (Id role)))
  ∧ (flat_name cn (Id role) ∉ done.*1 → NoDup (Permissions role) →
     ∃ st', add_role cn st role = Ok st'
            ∧ indexed (done ++ [(flat_name cn (Id role), Permissions role)]) st')
  ∧ (flat_name cn (Id role) ∉ done.*1 → ¬ NoDup (Permissions role) →
     ∃ p, p ∈ Permissions role ∧ add_role cn st role =
       Error ("duplicate permission " +:+ p +:+ " in role " +:+ flat_name cn (Id role))).
Proof.
  intros Hi. unfold add_role. split; [|split].
  - intros Hin. rewrite decide_True; [done|]. by eapply indexed_known.
  - intros Hrn Hnd.
    rewrite decide_False by (intros Hs; by apply Hrn, (indexed_dom _ _ Hi)).
    edestruct forM_add_permission as [H1 _];
      [by apply (indexed_open done _ st), Hrn|exact Hrn|].
    destruct (H1 Hnd) as (st' & -> & Hi' & _). eauto.
  - intros Hrn Hnd.
    rewrite decide_False by (intros Hs; by apply Hrn, (indexed_dom _ _ Hi)).
    edestruct forM_add_permission as [_ H2];
      [by apply (indexed_open done _ st), Hrn|exact Hrn|].
    apply H2; [apply NoDup_nil_2|done].
Qed.

(** Loops whose every round is such a step. *)
Section loading_loop.
Context {A : Type} (f : Rbac → A → result Rbac).
Context (key : A → list (string * list string)).

Hypothesis f_ok : loads_ok f key.
Hypothesis f_err : loads_err f key.
Hypothesis f_perm : loads_perm f key.

Lemma forM_loads_ok l : ∀ done st,
  indexed done st → NoDup (done ++ l ≫= key).*1 →
  Forall (λ d, NoDup d.2) (l ≫= key) →
  ∃ st', forM f l st = Ok st' ∧ indexed (done ++ l ≫= key) st'.
Proof.
  induction l as [|x l IH]; intros done st Hi Hnd Hall; simpl in *.
  - rewrite app_nil_r. eauto.
  - rewrite (assoc_L (++)) in Hnd. apply Forall_app in Hall as [Hx Hl].
    destruct (f_ok done st x Hi) as (st' & -> & Hi'); [|done|].
    { rewrite fmap_app in Hnd. by apply NoDup_app in Hnd as (? & _ & _). }
    destruct (IH _ _ Hi' Hnd Hl) as (st'' & -> & Hi'').
    exists st''. by rewrite (assoc_L (++)).
Qed.

Lemma forM_loads_err l : ∀ done st,
  indexed done st → NoDup done.*1 →
  ¬ (NoDup (done ++ l ≫= key).*1 ∧ Forall (λ d, NoDup d.2) (l ≫= key)) →
  is_Error (forM f l st).
Proof.
  induction l as [|x l IH]; intros done st Hi Hnd Hbad; simpl in *.
  - exfalso. apply Hbad. rewrite app_nil_r. by split.
  - destruct (decide (NoDup (done ++ key x).*1
                      ∧ Forall (λ d, NoDup d.2) (key x))) as [[Hn Hx]|Hx].
    + destruct (f_ok done st x Hi Hn Hx) as (st' & -> & Hi').
      apply (IH _ _ Hi' Hn). intros [Hn' Hl]. apply Hbad.
      rewrite (assoc_L (++)). split; [done|]. by apply Forall_app.
    + destruct (f_err done st x Hi Hnd Hx) as [e ->]. by exists e.
Qed.

Lemma forM_loads_perm l : ∀ done st,
  indexed done st → NoDup (done ++ l ≫= key).*1 →
  ¬ Forall (λ d, NoDup d.2) (l ≫= key) →
  ∃ p rn, forM f l st =
    Error ("duplicate permission " +:+ p +:+ " in role " +:+ rn).
Proof.
  induction l as [|x l IH]; intros done st Hi Hnd Hbad; simpl in *.
  - destruct Hbad. constructor.
  - rewrite (assoc_L (++)) in Hnd.
    assert (NoDup (done ++ key x).*1) as Hn.
    { rewrite fmap_app in Hnd. by apply NoDup_app in Hnd as (? & _ & _). }
    destruct (decide (Forall (λ d, NoDup d.2) (key x))) as [Hx|Hx].
    + destruct (f_ok done st x Hi Hn Hx) as (st' & -> & Hi').
      apply (IH _ _ Hi' Hnd). intros Hl. apply Hbad. by apply Forall_app.
    + destruct (f_perm done st x Hi Hn Hx) as (p & rn & ->). by exists p, rn.
Qed.
End loading_loop.

Lemma bind_role_key cn rs :
  rs ≫= role_key cn = (λ r, (flat_name cn (Id r), Permissions r)) <$> rs.
Proof.
  induction rs as [|r rs IH]; [done|].
  by rewrite bind_cons, fmap_cons, IH.
Qed.

Lemma add_role_loads_ok cn : loads_ok (add_role cn) (role_key cn).
Proof.
  intros done st r Hi Hnd Hall. unfold role_key in *.
  rewrite fmap_app in Hnd. apply NoDup_app in Hnd as (_ & Hd & _).
  rewrite Forall_singleton in Hall.
  destruct (add_role_spec done cn st r Hi) as (_ & H2 & _).
  apply H2; [|done]. intros Hin. apply (Hd _ Hin). by left.
Qed.

Lemma add_role_loads_err cn : loads_err (add_role cn) (role_key cn).
Proof.
  intros done st r Hi Hnd Hbad. unfold role_key in *.
  destruct (add_role_spec done cn st r Hi) as (H1 & _ & H3).
  destruct (decide (flat_name cn (Id r) ∈ done.*1)) as [Hin|Hin].
  { rewrite (H1 Hin). by eexists. }
  destruct (decide (NoDup (Permissions r))) as [Hp|Hp].
  - exfalso. apply Hbad. split; [|by apply Forall_singleton].
    rewrite fmap_app. apply NoDup_app. split; [done|]. split.
    + intros x Hx ->%list_elem_of_singleton. done.
    + apply NoDup_singleton.
  - destruct (H3 Hin Hp) as (p & _ & ->). by eexists.
Qed.

Lemma add_role_loads_perm cn : loads_perm (add_role cn) (role_key cn).
Proof.
  intros done st r Hi Hnd Hbad. unfold role_key in *.
  rewrite fmap_app in Hnd. apply NoDup_app in Hnd as (_ & Hd & _).
  rewrite Forall_singleton in Hbad.
  destruct (add_role_spec done cn st r Hi) as (_ & _ & H3).
  destruct H3 as (p & _ & ->); [|done|by eexists _, _].
  intros Hin. apply (Hd _ Hin). by left.
Qed.

Lemma add_chain_loads_ok : loads_ok add_chain chain_key.
Proof.
  intros done st c Hi Hnd Hall. unfold add_chain, chain_key in *.
  rewrite <-bind_role_key in *.
  eapply (forM_loads_ok _ _ (add_role_loads_ok (name c))); [|done..].
  by apply indexed_c2r.
Qed.

Lemma add_chain_loads_err : loads_err add_chain chain_key.
Proof.
  intros done st c Hi Hnd Hbad. unfold add_chain, chain_key in *.
  rewrite <-bind_role_key in *.
  eapply (forM_loads_err _ _ (add_role_loads_ok (name c)) (add_role_loads_err (name c)));
    [|done..].
  by apply indexed_c2r.
Qed.

Lemma add_chain_loads_perm : loads_perm add_chain chain_key.
Proof.
  intros done st c Hi Hnd Hbad. unfold add_chain, chain_key in *.
  rewrite <-bind_role_key in *.
  eapply (forM_loads_perm _ _ (add_role_loads_ok (name c))
            (add_role_loads_perm (name c))); [|done..].
  by apply indexed_c2r.
Qed.

Lemma flat_roles_bind chains : flat_roles chains = chains ≫= chain_key.
Proof. done. Qed.

Lemma NewRbac_ok chains :
  chains ≠ [] → well_formed chains →
  ∃ r, NewRbac chains = (Some r, None) ∧ indexed (flat_roles chains) r.
Proof.
  intros Hne [Hnd Hall]. unfold NewRbac.
  rewrite decide_False by (by destruct chains).
  destruct (forM_loads_ok _ _ add_chain_loads_ok chains [] empty_rbac)
    as (r & -> & Hi); [apply indexed_empty|done..|].
  by exists r.
Qed.

Lemma NewRbac_err chains :
  chains = [] ∨ ¬ well_formed chains →
  ∃ e, NewRbac chains = (None, Some e).
Proof.
  intros Hbad. unfold NewRbac. case_decide as Hl; [by eexists|].
  destruct Hbad as [->|Hbad]; [done|].
  destruct (forM_loads_err _ _ add_chain_loads_ok add_chain_loads_err
              chains [] empty_rbac) as (e & ->);
    [apply indexed_empty|apply NoDup_nil_2|done|].
  by exists e.
Qed.

Lemma NewRbac_Some chains r e :
  NewRbac chains = (Some r, e) →
  e = None ∧ chains ≠ [] ∧ well_formed chains ∧ indexed (flat_roles chains) r.
Proof.
  intros Heq.
  destruct (decide (chains = [])) as [->|Hne]; [done|].
  destruct (decide (well_formed chains)) as [Hwf|Hwf].
  - destruct (NewRbac_ok chains Hne Hwf) as (r' & Heq' & Hi).
    rewrite Heq' in Heq. by simplify_eq.
  - destruct (NewRbac_err chains) as (e' & Heq'); [by right|].
    rewrite Heq' in Heq. done.
Qed.

Lemma not_NoDup_has_duplicate {A} `{!EqDecision A} (l : list A) :
  ¬ NoDup l ↔ has_duplicate l.
Proof.
  split.
  - induction l as [|x l IH]; intros Hnd.
    + destruct Hnd. apply NoDup_nil_2.
    + destruct (decide (x ∈ l)) as [Hin|Hin].
      * apply list_elem_of_lookup in Hin as [k Hk].
        exists 0, (S k), x. by split.
      * destruct IH as (i & j & y & Hij & Hi & Hj).
        { intros Hl. apply Hnd. by apply NoDup_cons. }
        exists (S i), (S j), y. split; [lia|done].
  - intros (i & j & x & Hij & Hi & Hj) Hnd.
    apply Hij. eapply NoDup_lookup; eauto.
Qed.

Lemma flat_roles_elem chains rn perms :
  (rn, perms) ∈ flat_roles chains ↔
  ∃ c r, c ∈ chains ∧ r ∈ roles c ∧ rn = flat_name (name c) (Id r) ∧ perms = Permissions r.
Proof.
  unfold flat_roles. rewrite list_elem_of_bind. split.
  - intros (c & (r & Heq & Hr)%list_elem_of_fmap & Hc). simplify_eq.
    by exists c, r.
  - intros (c & r & Hc & Hr & -> & ->). exists c. split; [|done].
    apply list_elem_of_fmap. by exists r.
Qed.

Lemma flat_roles_NoDup_perms chains :
  Forall (λ d, NoDup d.2) (flat_roles chains) ↔
  ∀ c r, c ∈ chains → r ∈ roles c → NoDup (Permissions r).
Proof.
  rewrite Forall_forall. split.
  - intros H c r Hc Hr.
    apply (H (flat_name (name c) (Id r), Permissions r)).
    apply flat_roles_elem. by exists c, r.
  - intros H [rn perms] (c & r & Hc & Hr & -> & ->)%flat_roles_elem.
    by apply (H c r).
Qed.

(** The roles of a chain survive further [Add] calls. *)
Lemma Add_more_roles c more r :
  r ∈ roles c → r ∈ roles (foldl (λ c d, Add d.1 d.2 c) c more).
Proof.
  revert c. induction more as [|d more IH]; intros c Hr; [done|].
  simpl. apply IH. simpl. apply elem_of_app. by left.
Qed.

Lemma overlap_not_NoDup (l perms : list string) p :
  p ∈ l → p ∈ perms → ¬ NoDup (l ++ perms).
Proof.
  intros Hl Hp (_ & Hd & _)%NoDup_app. by apply (Hd p).
Qed.

Lemma NewRbac_perm chains :
  NoDup (flat_roles chains).*1 →
  ¬ Forall (λ d, NoDup d.2) (flat_roles chains) →
  ∃ p rn, NewRbac chains =
    (None, Some ("duplicate permission " +:+ p +:+ " in role " +:+ rn)).
Proof.
  intros Hnd Hbad. unfold NewRbac. case_decide as Hl.
  { destruct chains; [|done]. destruct Hbad. constructor. }
  destruct (forM_loads_perm _ _ add_chain_loads_ok add_chain_loads_perm
              chains [] empty_rbac) as (p & rn & ->);
    [apply indexed_empty|done..|].
  by exists p, rn.
Qed.

(** ** The chain table *)

Lemma add_permission_c2r rn st p st' :
  add_permission rn st p = Ok st' → chainToRoleIdSet st' = chainToRoleIdSet st.
Proof. unfold add_permission. case_decide; [done|]. by intros [= <-]. Qed.

Lemma forM_add_permission_c2r rn perms : ∀ st st',
  forM (add_permission rn) perms st = Ok st' →
  chainToRoleIdSet st' = chainToRoleIdSet st.
Proof.
  induction perms as [|p perms IH]; intros st st'; simpl.
  - by intros [= <-].
  - destruct (add_permission rn st p) as [st1|] eqn:E; [|done].
    intros H. rewrite (IH _ _ H). by eapply add_permission_c2r.
Qed.

Lemma add_role_c2r cn st r st' :
  add_role cn st r = Ok st' →
  chainToRoleIdSet st' =
    <[cn := {[Id r]} ∪ at_key (chainToRoleIdSet st) cn]> (chainToRoleIdSet st).
Proof.
  unfold add_role. case_decide; [done|].
  intros Hf. by rewrite (forM_add_permission_c2r _ _ _ _ Hf).
Qed.

Lemma forM_add_role_c2r cn rs : ∀ st st' S,
  forM (add_role cn) rs st = Ok st' →
  chainToRoleIdSet st !! cn = Some S →
  chainToRoleIdSet st' =
    <[cn := list_to_set (Id <$> rs) ∪ S]> (chainToRoleIdSet st).
Proof.
  induction rs as [|r rs IH]; intros st st' S; simpl.
  - intros [= <-] HS. rewrite (left_id_L ∅ (∪)). by rewrite insert_id.
  - destruct (add_role cn st r) as [st1|] eqn:E; [|done].
    intros H HS. apply add_role_c2r in E.
    rewrite (at_key_Some _ _ _ HS) in E.
    rewrite (IH st1 st' ({[Id r]} ∪ S) H), E.
    + rewrite insert_insert_eq. f_equal. set_solver.
    + rewrite E. apply lookup_insert_eq.
Qed.

Lemma add_chain_c2r st c st' :
  add_chain st c = Ok st' →
  chainToRoleIdSet st' = <[name c := role_ids c]> (chainToRoleIdSet st).
Proof.
  unfold add_chain. intros H.
  rewrite (forM_add_role_c2r _ _ _ _ ∅ H); simpl.
  - rewrite insert_insert_eq. unfold role_ids. f_equal. set_solver.
  - apply lookup_insert_eq.
Qed.

Lemma forM_add_chain_c2r chains : ∀ st st',
  forM add_chain chains st = Ok st' →
  chainToRoleIdSet st' =
    foldl (λ m c, <[name c := role_ids c]> m) (chainToRoleIdSet st) chains.
Proof.
  induction chains as [|c chains IH]; intros st st'; simpl.
  - by intros [= <-].
  - destruct (add_chain st c) as [st1|] eqn:E; [|done].
    intros H. rewrite (IH _ _ H). by rewrite (add_chain_c2r _ _ _ E).
Qed.

(** A later chain of the same name replaces the role ids of an earlier
    one: line 60 assigns a fresh inner map without looking. *)
Lemma c2r_lookup chains (m : gmap string (gset string)) cn :
  foldl (λ m c, <[name c := role_ids c]> m) m chains !! cn =
    match last (filter (λ c, name c = cn) chains) with
    | Some c => Some (role_ids c)
    | None => m !! cn
    end.
Proof.
  induction chains as [|c chains IH] using rev_ind; [done|].
  rewrite foldl_app, filter_app. simpl.
  rewrite filter_cons, filter_nil. case_decide as Hn.
  - subst. by rewrite last_snoc, lookup_insert_eq.
  - rewrite app_nil_r, lookup_insert_ne by done. apply IH.
Qed.

Lemma NewRbac_c2r chains r e cn :
  NewRbac chains = (Some r, e) →
  chainToRoleIdSet r !! cn = role_ids <$> last (filter (λ c, name c = cn) chains).
Proof.
  unfold NewRbac. case_decide; [done|].
  destruct (forM add_chain chains empty_rbac) as [st|] eqn:E; [|done].
  intros [= <- _]. rewrite (forM_add_chain_c2r _ _ _ E), c2r_lookup. simpl.
  by destruct (last _).
Qed.

Lemma ChainHasRoleId_true r chain roleId :
  ChainHasRoleId r chain roleId = true ↔
  ∃ S, chainToRoleIdSet r !! chain = Some S ∧ roleId ∈ S.
Proof.
  unfold ChainHasRoleId, at_key. destruct (chainToRoleIdSet r !! chain) as [S|].
  - rewrite decide_True by eauto. simpl. case_decide; split; try done.
    + intros _. by exists S.
    + intros (S' & [= <-] & ?). done.
  - rewrite decide_False by (by intros [? ?]). split; [done|].
    by intros (? & ? & _).
Qed.

(** ** What [NewRbac] returns *)

(** C3. [NewRbac] returns an error exactly when no chain is given, or two
    roles flatten to the same name, or the permission list of some role
    holds the same entry twice; it then returns no controller, and in every
    other case it returns a controller and no error. *)
Theorem NewRbac_error_iff (chains : list RoleChain) :
  ((∃ e, (NewRbac chains).2 = Some e) ↔
     chains = []
     ∨ has_duplicate (flat_roles chains).*1
     ∨ ∃ c r, c ∈ chains ∧ r ∈ roles c ∧ has_duplicate (Permissions r))
  ∧ (∀ e, (NewRbac chains).2 = Some e → (NewRbac chains).1 = None)
  ∧ ((NewRbac chains).2 = None → ∃ r, (NewRbac chains).1 = Some r).
Proof.
  assert (well_formed chains ↔
          ¬ (has_duplicate (flat_roles chains).*1
             ∨ ∃ c r, c ∈ chains ∧ r ∈ roles c ∧ has_duplicate (Permissions r)))
    as Hwf.
  { unfold well_formed. rewrite flat_roles_NoDup_perms. split.
    - intros [Hn Hp] [Hd|(c & r & Hc & Hr & Hd)].
      + by apply not_NoDup_has_duplicate in Hd.
      + apply not_NoDup_has_duplicate in Hd. by apply Hd, (Hp c r).
    - intros Hno. split.
      + destruct (decide (NoDup (flat_roles chains).*1)) as [|Hd]; [done|].
        destruct Hno. left. by apply not_NoDup_has_duplicate.
      + intros c r Hc Hr.
        destruct (decide (NoDup (Permissions r))) as [|Hd]; [done|].
        destruct Hno. right. exists c, r.
        split; [done|]. split; [done|]. by apply not_NoDup_has_duplicate. }
  destruct (decide (chains = [])) as [Hnil|Hne].
  { subst. split; [|split]; try done. split; [by left|by eexists]. }
  destruct (decide (well_formed chains)) as [Hok|Hbad].
  - destruct (NewRbac_ok chains Hne Hok) as (r & -> & _). simpl.
    split; [|split]; [|done|by eexists].
    split; [by intros [? ?]|]. intros [?|Hd]; [done|]. by apply Hwf in Hok.
  - destruct (NewRbac_err chains) as (e & ->); [by right|]. simpl.
    split; [|split]; [|done..].
    split; [|by eexists]. intros _. right.
    destruct (decide (NoDup (flat_roles chains).*1)) as [Hn|Hn];
      [|left; by apply not_NoDup_has_duplicate].
    right.
    destruct (decide (Forall (λ d, NoDup d.2) (flat_roles chains))) as [Hp|Hp];
      [by destruct Hbad|].
    apply not_Forall_Exists in Hp; [|intros ?; apply _].
    apply Exists_exists in Hp as ([rn perms] & Hin & Hd).
    apply flat_roles_elem in Hin as (c & r & Hc & Hr & -> & ->).
    exists c, r. split; [done|]. split; [done|].
    by apply not_NoDup_has_duplicate.
Qed.

(** C10. In a controller that [NewRbac] returns, the two role tables are
    inverse to each other: a role lists a permission exactly when the
    permission lists the role. *)
Theorem NewRbac_tables_inverse (chains : list RoleChain) (r : Rbac) (p rn : string) :
  NewRbac chains = (Some r, None) →
  p ∈ at_key (roleToPermissionSet r) rn ↔ rn ∈ at_key (permissionToRoleSet r) p.
Proof.
  intros (_ & _ & _ & Hi)%NewRbac_Some.
  rewrite (indexed_p2r _ _ Hi). split.
  - intros Hp. unfold at_key in Hp.
    destruct (roleToPermissionSet r !! rn) as [S|] eqn:E; [|set_solver].
    assert (rn ∈ (flat_roles chains).*1) as Hin
      by (apply (indexed_dom _ _ Hi); rewrite E; eauto).
    apply list_elem_of_fmap in Hin as ([rn' perms] & -> & Hin). simpl in *.
    rewrite (indexed_r2p _ _ Hi _ _ Hin) in E. simplify_eq.
    exists perms. split; [done|]. simpl in Hp. by apply elem_of_list_to_set in Hp.
  - intros (perms & Hin & Hp).
    rewrite (at_key_Some _ _ _ (indexed_r2p _ _ Hi _ _ Hin)).
    by apply elem_of_list_to_set.
Qed.

Lemma elem_of_concat {A} (x : A) (ls : list (list A)) :
  x ∈ concat ls ↔ ∃ l, x ∈ l ∧ l ∈ ls.
Proof.
  induction ls as [|l ls IH]; simpl.
  - split; [by intros ?%elem_of_nil|]. by intros (? & _ & ?%elem_of_nil).
  - rewrite elem_of_app, IH. split.
    + intros [?|(l' & ? & ?)]; [exists l|exists l']; split; try done;
        [by left|by right].
    + intros (l' & Hx & [->|?]%elem_of_cons); [by left|]. right. by exists l'.
Qed.

Lemma elem_of_concat_take_snd (decls : list (string * list string)) n p :
  p ∈ concat (take n decls).*2 ↔ declared_upto n decls p.
Proof.
  unfold declared_upto. rewrite elem_of_concat. split.
  - intros (l & Hp & Hl).
    apply list_elem_of_fmap in Hl as (d & -> & Hd).
    apply list_elem_of_lookup in Hd as (j & Hj).
    apply lookup_take_Some in Hj as [Hj Hlt]. by exists j, d.
  - intros (j & d & Hlt & Hj & Hp). exists d.2. split; [done|].
    apply list_elem_of_fmap. exists d. split; [done|].
    apply list_elem_of_lookup. exists j. by apply lookup_take_Some.
Qed.

(** C1. The role added by the [k]-th [Add] call of a chain holds exactly
    the permissions declared by that call and the calls before it, both in
    the chain and, once [NewRbac] has accepted a list with this chain, in
    the controller under the flattened name of the role. *)
Theorem role_grants_union
    (nm : string) (decls : list (string * list string)) (k : nat)
    (id : string) (perms : list string) :
  decls !! k = Some (id, perms) →
  (∃ role, roles (build nm decls) !! k = Some role ∧ Id role = id
           ∧ ∀ p, p ∈ Permissions role ↔ declared_upto (S k) decls p)
  ∧ (∀ chains r, build nm decls ∈ chains → NewRbac chains = (Some r, None) →
       is_Some (roleToPermissionSet r !! flat_name nm id)
       ∧ ∀ p, p ∈ at_key (roleToPermissionSet r) (flat_name nm id)
              ↔ declared_upto (S k) decls p).
Proof.
  intros Hk. pose proof (build_roles_lookup nm _ _ _ _ Hk) as Hrole. split.
  - eexists. split; [exact Hrole|]. split; [done|].
    intros p. simpl. apply elem_of_concat_take_snd.
  - intros chains r Hc (_ & _ & _ & Hi)%NewRbac_Some.
    assert (roleToPermissionSet r !! flat_name nm id =
            Some (list_to_set (concat (take (S k) decls).*2))) as Hr.
    { apply (indexed_r2p _ _ Hi). apply flat_roles_elem.
      eexists _, _. split; [exact Hc|]. split.
      - eapply list_elem_of_lookup_2, Hrole.
      - by rewrite build_name. }
    split; [by rewrite Hr; eauto|]. intros p.
    rewrite (at_key_Some _ _ _ Hr), elem_of_list_to_set.
    apply elem_of_concat_take_snd.
Qed.

(** C2, as the code has it.  [Add] appends the given permissions to the
    cumulative list and removes nothing.  When a given permission is already
    in the cumulative list, every list of chains holding the chain, however
    much it is extended afterwards, is refused by [NewRbac]; the error is
    the duplicate-permission one when no two roles flatten to the same
    name. *)
Theorem Add_appends_overlap_rejected
    (c : RoleChain) (id : string) (perms : list string)
    (more : list (string * list string)) (chains : list RoleChain) :
  permissions (Add id perms c) = permissions c ++ perms
  ∧ last (roles (Add id perms c)) =
      Some {| Id := id; Permissions := permissions c ++ perms |}
  ∧ ((∃ p, p ∈ permissions c ∧ p ∈ perms) →
     foldl (λ c d, Add d.1 d.2 c) (Add id perms c) more ∈ chains →
     (∃ e, NewRbac chains = (None, Some e))
     ∧ (NoDup (flat_roles chains).*1 →
        ∃ p rn, NewRbac chains =
          (None, Some ("duplicate permission " +:+ p +:+ " in role " +:+ rn)))).
Proof.
  split; [done|]. split; [simpl; by rewrite last_snoc|].
  intros (p & Hc & Hp) Hin.
  assert (¬ Forall (λ d, NoDup d.2) (flat_roles chains)) as Hbad.
  { rewrite flat_roles_NoDup_perms. intros Hall.
    apply (overlap_not_NoDup _ _ _ Hc Hp).
    apply (Hall _ {| Id := id; Permissions := permissions c ++ perms |} Hin).
    apply Add_more_roles. simpl. apply elem_of_app. right.
    by apply list_elem_of_singleton. }
  split.
  - apply NewRbac_err. right. by intros [_ ?].
  - intros Hnd. by apply NewRbac_perm.
Qed.

(** ** [ChainHasRoleId] *)

(** What [ChainHasRoleId] answers on a controller that [NewRbac] returned:
    it looks at the last chain of that name only. *)
Lemma ChainHasRoleId_last chains r e cn id :
  NewRbac chains = (Some r, e) →
  ChainHasRoleId r cn id = true ↔
  ∃ c, last (filter (λ c, name c = cn) chains) = Some c ∧ id ∈ Id <$> roles c.
Proof.
  intros Hnew. rewrite ChainHasRoleId_true, (NewRbac_c2r _ _ _ cn Hnew).
  destruct (last _) as [c|]; simpl.
  - unfold role_ids. split.
    + intros (S & [= <-] & Hid). exists c. split; [done|].
      by apply elem_of_list_to_set in Hid.
    + intros (c' & [= <-] & Hid). eexists. split; [done|].
      by apply elem_of_list_to_set.
  - split; [by intros (? & ? & _)|by intros (? & ? & _)].
Qed.

Lemma last_filter_elem {A} (P : A → Prop) `{!∀ x, Decision (P x)} (l : list A) x :
  last (filter P l) = Some x → x ∈ l ∧ P x.
Proof.
  intros Hl. apply last_Some in Hl as [l' Hl].
  assert (x ∈ filter P l) as Hin
    by (rewrite Hl; apply elem_of_app; right; by apply list_elem_of_singleton).
  apply list_elem_of_filter in Hin as [? ?]. done.
Qed.

(** X2. On a controller that [NewRbac] returns, [ChainHasRoleId] never
    reports a role id that no chain of that name has: the answer is
    [false] for a chain name or a role id that was not given. *)
Lemma ChainHasRoleId_absent chains r e cn id :
  NewRbac chains = (Some r, e) →
  (∀ c role, c ∈ chains → role ∈ roles c → ¬ (name c = cn ∧ Id role = id)) →
  ChainHasRoleId r cn id = false.
Proof.
  intros Hnew Habs. apply not_true_is_false.
  intros (c & Hl & Hid)%(ChainHasRoleId_last _ _ _ _ _ Hnew).
  apply last_filter_elem in Hl as [Hc Hn].
  apply list_elem_of_fmap in Hid as (role & -> & Hrole).
  by apply (Habs c role).
Qed.

Lemma filter_none {A} (P : A → Prop) `{!∀ x, Decision (P x)} (l : list A) :
  (∀ x, x ∈ l → ¬ P x) → filter P l = [].
Proof.
  induction l as [|x l IH]; intros Hno; [done|].
  rewrite filter_cons, decide_False by (apply Hno; by left).
  apply IH. intros y Hy. apply Hno. by right.
Qed.

Lemma filter_name_unique (chains : list RoleChain) c :
  NoDup (name <$> chains) → c ∈ chains →
  filter (λ c', name c' = name c) chains = [c].
Proof.
  induction chains as [|c0 chains IH]; intros Hnd Hc.
  { by apply elem_of_nil in Hc. }
  rewrite fmap_cons in Hnd. apply NoDup_cons in Hnd as [Hc0 Hnd].
  assert (∀ c', c' ∈ chains → name c' ≠ name c0) as Hne.
  { intros c' Hc' Heq. apply Hc0. rewrite <-Heq.
    apply list_elem_of_fmap. by exists c'. }
  rewrite filter_cons. apply elem_of_cons in Hc as [->|Hc].
  - rewrite decide_True by done. f_equal. by apply filter_none.
  - rewrite decide_False by (intros Heq; by apply (Hne c Hc)).
    by apply IH.
Qed.

(** X3. When the chains given to [NewRbac] have pairwise different names,
    every role id of every chain is reported. *)
Lemma ChainHasRoleId_present chains r e c role :
  NewRbac chains = (Some r, e) → NoDup (name <$> chains) →
  c ∈ chains → role ∈ roles c →
  ChainHasRoleId r (name c) (Id role) = true.
Proof.
  intros Hnew Hnd Hc Hrole. apply (ChainHasRoleId_last _ _ _ _ _ Hnew).
  exists c. rewrite (filter_name_unique _ _ Hnd Hc). split; [done|].
  apply list_elem_of_fmap. by exists role.
Qed.

(** C7.  Two chains may share a name as long as their role ids differ:
    [NewRbac] accepts them, yet the role id of the first chain is then
    reported as absent, although it was present in its chain. *)
Theorem ChainHasRoleId_same_name_lost :
  NewRbac sameNameChains = (Some sameNameRbac, None)
  ∧ ChainHasRoleId sameNameRbac "a" "x" = false
  ∧ ChainHasRoleId sameNameRbac "a" "y" = true.
Proof.
  do 2 (split; [vm_compute; reflexivity|]). vm_compute. reflexivity.
Qed.

(** ** Authorizers *)

Section authorizer_facts.
Import Authorizer.

Lemma Add_eq rs a :
  Add rs a = mk (rbac a) (list_to_set rs ∪ roles a) (wg a) (errors a).
Proof.
  revert a. induction rs as [|r rs IH]; intros a.
  - destruct a. simpl. by rewrite (left_id_L ∅ (∪)).
  - change (Add (r :: rs) a)
      with (Add rs (mk (rbac a) (Store r (roles a)) (wg a) (errors a))).
    rewrite IH. simpl. f_equal. unfold Store. set_solver.
Qed.

Lemma run_body_eq todo a :
  run_body todo a =
    mk (rbac a) (stored_roles todo ∪ roles a) (wg a) (stored_errors todo ∪ errors a).
Proof.
  revert a. induction todo as [|act todo IH]; intros a.
  - destruct a. unfold stored_roles, stored_errors. simpl.
    by rewrite !(left_id_L ∅ (∪)).
  - destruct act.
    + change (run_body (StoreError msg :: todo) a)
        with (run_body todo (mk (rbac a) (roles a) (wg a) (Store msg (errors a)))).
      rewrite IH. unfold stored_roles, stored_errors, Store. simpl.
      f_equal. set_solver.
    + change (run_body (StoreRole role :: todo) a)
        with (run_body todo (mk (rbac a) (Store role (roles a)) (wg a) (errors a))).
      rewrite IH. unfold stored_roles, stored_errors, Store. simpl.
      f_equal. set_solver.
    + change (run_body (Done :: todo) a) with (run_body todo a).
      by rewrite IH.
Qed.

Lemma stored_roles_app t1 t2 :
  stored_roles (t1 ++ t2) = stored_roles t1 ∪ stored_roles t2.
Proof. unfold stored_roles. by rewrite omap_app, list_to_set_app_L. Qed.

Lemma stored_errors_app t1 t2 :
  stored_errors (t1 ++ t2) = stored_errors t1 ∪ stored_errors t2.
Proof. unfold stored_errors. by rewrite omap_app, list_to_set_app_L. Qed.

Lemma stored_roles_cons act todo :
  stored_roles (act :: todo) =
    match act with
    | StoreRole r => {[r]} ∪ stored_roles todo
    | _ => stored_roles todo
    end.
Proof. by destruct act. Qed.

Lemma stored_errors_cons act todo :
  stored_errors (act :: todo) =
    match act with
    | StoreError m => {[m]} ∪ stored_errors todo
    | _ => stored_errors todo
    end.
Proof. by destruct act. Qed.

Lemma stored_roles_map rs : stored_roles (map StoreRole rs) = list_to_set rs.
Proof.
  induction rs as [|r rs IH]; [done|].
  cbn [map list_to_set]. by rewrite stored_roles_cons, IH.
Qed.

Lemma stored_errors_map rs : stored_errors (map StoreRole rs) = ∅.
Proof.
  induction rs as [|r rs IH]; [done|].
  cbn [map]. by rewrite stored_errors_cons, IH.
Qed.

Lemma stored_roles_flags r rs : stored_roles (flags r rs) = ∅.
Proof.
  unfold stored_roles, flags. induction rs as [|x rs IH]; [done|].
  simpl. rewrite omap_app, list_to_set_app_L, IH. case_decide; simpl; set_solver.
Qed.

Lemma elem_of_stored_errors_flags r rs m :
  m ∈ stored_errors (flags r rs) ↔
  ∃ role, role ∈ rs ∧ roleToPermissionSet r !! role = None
          ∧ m = "role " +:+ role +:+ " not allowed".
Proof.
  unfold stored_errors, flags. induction rs as [|x rs IH]; simpl.
  - split; [set_solver|]. by intros (? & ?%elem_of_nil & _).
  - rewrite omap_app, list_to_set_app_L, elem_of_union, IH. split.
    + intros [Hm|(role & ? & ? & ?)].
      * case_decide as Hs; simpl in Hm; [set_solver|].
        exists x. split; [by left|]. split; [by apply eq_None_not_Some|].
        set_solver.
      * exists role. split; [by right|done].
    + intros (role & [->|Hin]%elem_of_cons & Hn & ->).
      * left. rewrite decide_False by (rewrite Hn; by intros [? ?]).
        simpl. set_solver.
      * right. by exists role.
Qed.

Lemma body_eq r rs err :
  body r rs err =
    ((match err with Some e => [StoreError e] | None => [] end)
     ++ flags r rs ++ map StoreRole rs) ++ [Done].
Proof. unfold body, flags. by rewrite <-!(assoc_L (++)). Qed.

(** The goroutine stores exactly the returned roles, whatever [err] is. *)
Lemma stored_roles_body r rs err : stored_roles (body r rs err) = list_to_set rs.
Proof.
  rewrite body_eq, !stored_roles_app, stored_roles_flags, stored_roles_map.
  destruct err; unfold stored_roles; simpl; set_solver.
Qed.

Lemma elem_of_stored_errors_body r rs err m :
  m ∈ stored_errors (body r rs err) ↔
  err = Some m ∨ m ∈ stored_errors (flags r rs).
Proof.
  rewrite body_eq, !stored_errors_app, stored_errors_map.
  destruct err; unfold stored_errors at 1 4; simpl; set_solver.
Qed.

Lemma body_well_bracketed r rs err : well_bracketed (body r rs err).
Proof.
  right. rewrite body_eq. eexists. split; [done|].
  rewrite !elem_of_app. intros [Hin|[Hin|Hin]].
  - destruct err; [|by apply elem_of_nil in Hin].
    by apply list_elem_of_singleton in Hin.
  - unfold flags in Hin. apply list_elem_of_In, in_flat_map in Hin as (x & _ & Hin).
    case_decide; [done|]. by destruct Hin.
  - apply list_elem_of_In, in_map_iff in Hin as (x & ? & _). done.
Qed.

Lemma well_bracketed_Done rest : well_bracketed (Done :: rest) → rest = [].
Proof.
  intros [?|(pre & Heq & Hno)]; [done|].
  destruct pre as [|act pre]; simpl in Heq; simplify_eq; [done|].
  destruct Hno. by left.
Qed.

Lemma well_bracketed_step act rest :
  act ≠ Done → well_bracketed (act :: rest) →
  rest ≠ [] ∧ well_bracketed rest.
Proof.
  intros Hact [?|(pre & Heq & Hno)]; [done|].
  destruct pre as [|act' pre]; simpl in Heq; simplify_eq.
  split; [by destruct pre|]. right. exists pre. split; [done|].
  intros Hin. apply Hno. by right.
Qed.

Lemma pending_app l1 l2 : pending (l1 ++ l2) = pending l1 + pending l2.
Proof. unfold pending. by rewrite sum_list_with_app. Qed.

Lemma pending_insert l k g g' :
  l !! k = Some g →
  pending (<[k := g']> l) + (if unfinished g then 1 else 0) =
  pending l + (if unfinished g' then 1 else 0).
Proof.
  revert k. induction l as [|g0 l IH]; intros [|k] Hk; simplify_eq/=.
  - unfold pending. simpl. lia.
  - specialize (IH k Hk). unfold pending in *. simpl. lia.
Qed.

Lemma pending_zero l : pending l = 0 → Forall (λ g, unfinished g = false) l.
Proof.
  induction l as [|g l IH]; intros Hp; [constructor|].
  unfold pending in *. simpl in Hp.
  destruct (unfinished g) eqn:E; [lia|].
  constructor; [done|]. apply IH. lia.
Qed.

Lemma pending_pos l g : g ∈ l → unfinished g = true → 0 < pending l.
Proof.
  intros Hin Hg. induction Hin as [g l|g g' l Hin IH];
    unfold pending in *; simpl.
  - rewrite Hg. lia.
  - specialize (IH Hg). lia.
Qed.

Lemma fmap_insert_same {A B} (f : A → B) (l : list A) k g g' :
  l !! k = Some g → f g' = f g → f <$> <[k := g']> l = f <$> l.
Proof.
  intros Hk Hf. rewrite list_fmap_insert, Hf.
  apply list_insert_id. by rewrite list_lookup_fmap, Hk.
Qed.

Lemma union_list_insert (l : list (gset string)) k e y :
  l !! k = Some (e ∪ y) → e ∪ ⋃ (<[k := y]> l) = ⋃ l.
Proof.
  revert k. induction l as [|z l IH]; intros [|k] Hk; simplify_eq/=.
  - set_solver.
  - rewrite <-(IH k Hk). set_solver.
Qed.

Lemma union_list_fmap_insert {A} (f : A → gset string) (l : list A) k g g' e :
  l !! k = Some g → f g = e ∪ f g' →
  e ∪ ⋃ (f <$> <[k := g']> l) = ⋃ (f <$> l).
Proof.
  intros Hk Hf. rewrite list_fmap_insert. apply union_list_insert.
  by rewrite list_lookup_fmap, Hk, <-Hf.
Qed.

Lemma exec_rbac act a a' : exec act a = Some a' → rbac a' = rbac a.
Proof.
  destruct act; simpl; [by intros [= <-]..|].
  case_decide; [done|]. by intros [= <-].
Qed.

Lemma step_goroutine_rbac k x x' :
  step_goroutine k x = Some x' → rbac (obj x') = rbac (obj x).
Proof.
  unfold step_goroutine. intros Hs.
  destruct (spawned x !! k) as [[[rs err|]|[|act todo]]|]; simplify_eq/=; [done|].
  destruct (exec act (obj x)) as [a'|] eqn:E; simplify_eq/=.
  by eapply exec_rbac.
Qed.

(** A step of a goroutine moves one store from what is still to come to
    what has been done: the settled authorizer stays the same. *)
Lemma step_goroutine_settled k x x' :
  step_goroutine k x = Some x' → settled x' = settled x.
Proof.
  unfold step_goroutine, settled. intros Hs.
  destruct (spawned x !! k) as [[[rs err|]|[|act todo]]|] eqn:Hk;
    simplify_eq/=.
  - by rewrite !(fmap_insert_same _ _ _ _ _ Hk).
  - destruct x as [[rb ro w er] l]. simpl in *.
    destruct act; simpl in Hs.
    + simplify_eq/=. f_equal.
      * by rewrite (fmap_insert_same _ _ _ _ _ Hk).
      * rewrite <-(union_list_fmap_insert
                     (λ g, stored_errors (remaining rb g)) l k _
                     (Running todo) {[msg]} Hk) by done.
        unfold Store. set_solver.
    + simplify_eq/=. f_equal.
      * rewrite <-(union_list_fmap_insert
                     (λ g, stored_roles (remaining rb g)) l k _
                     (Running todo) {[role]} Hk) by done.
        unfold Store. set_solver.
      * by rewrite (fmap_insert_same _ _ _ _ _ Hk).
    + case_decide; simplify_eq/=.
      by rewrite !(fmap_insert_same _ _ _ _ _ Hk).
Qed.

Lemma unfinished_Running todo : todo ≠ [] → unfinished (Running todo) = true.
Proof. by destruct todo. Qed.

Lemma body_not_nil r rs err : body r rs err ≠ [].
Proof. rewrite body_eq. intros [_ ?]%app_nil. done. Qed.

Lemma pending_insert_same l k g g' :
  l !! k = Some g → unfinished g = true → unfinished g' = true →
  pending (<[k := g']> l) = pending l.
Proof.
  intros Hk Hg Hg'. pose proof (pending_insert _ _ _ g' Hk) as Hp.
  rewrite Hg, Hg' in Hp. lia.
Qed.

Lemma pending_insert_finished l k g :
  l !! k = Some g → unfinished g = true →
  Z.of_nat (pending (<[k := Running []]> l)) = (Z.of_nat (pending l) - 1)%Z.
Proof.
  intros Hk Hg. pose proof (pending_insert _ _ _ (Running []) Hk) as Hp.
  rewrite Hg in Hp. simpl in Hp. lia.
Qed.

Lemma step_goroutine_consistent k x x' :
  consistent x → step_goroutine k x = Some x' → consistent x'.
Proof.
  unfold step_goroutine, consistent. intros [Hwg Hall] Hs.
  destruct (spawned x !! k) as [g|] eqn:Hk; [|done].
  pose proof (Forall_lookup_1 _ _ _ _ Hall Hk) as Hg.
  destruct g as [[rs err|]|[|act todo]]; simplify_eq/=.
  - split.
    + rewrite (pending_insert_same _ _ _ _ Hk); [done..|].
      apply unfinished_Running, body_not_nil.
    + by apply Forall_insert.
  - destruct (exec act (obj x)) as [a'|] eqn:E; simplify_eq/=.
    pose proof (exec_rbac _ _ _ E) as Hrb. rewrite Hrb.
    destruct act; simpl in E.
    + simplify_eq/=. apply well_bracketed_step in Hg as [Hne Hg]; [|done].
      rewrite (pending_insert_same _ _ _ _ Hk);
        [|done|by apply unfinished_Running].
      split; [done|]. by apply Forall_insert.
    + simplify_eq/=. apply well_bracketed_step in Hg as [Hne Hg]; [|done].
      rewrite (pending_insert_same _ _ _ _ Hk);
        [|done|by apply unfinished_Running].
      split; [done|]. by apply Forall_insert.
    + case_decide; simplify_eq/=. apply well_bracketed_Done in Hg as ->.
      rewrite (pending_insert_finished _ _ _ Hk) by done.
      split; [lia|]. apply Forall_insert; [done|by left].
Qed.

Lemma AddAsync_consistent f x : consistent x → consistent (AddAsync f x).
Proof.
  unfold consistent, AddAsync. intros [Hwg Hall]. simpl. split.
  - rewrite pending_app. unfold pending at 2. simpl. lia.
  - apply Forall_app. split; [done|]. apply Forall_singleton.
    destruct f; simpl; [apply body_well_bracketed|by left].
Qed.

Lemma Add_consistent rs x :
  consistent x → consistent {| obj := Add rs (obj x); spawned := spawned x |}.
Proof. unfold consistent. rewrite Add_eq. by simpl. Qed.

Lemma Authorizer_consistent r rs :
  consistent {| obj := Authorizer r rs; spawned := [] |}.
Proof.
  unfold consistent, Authorizer. rewrite Add_eq. simpl. split; [done|constructor].
Qed.

(** Once the counter is zero every goroutine has finished, and the
    authorizer is the settled one. *)
Lemma quiescent x :
  consistent x → wg (obj x) = 0%Z →
  obj x = settled x ∧ Forall (λ g, g = Running []) (spawned x).
Proof.
  intros [Hwg _] H0.
  assert (Forall (λ g, g = Running []) (spawned x)) as Hfin.
  { eapply Forall_impl; [apply pending_zero; lia|].
    by intros [[]|[]]. }
  split; [|done]. unfold settled. destruct x as [[rb ro w er] l].
  simpl in *. clear Hwg. subst w.
  assert (∀ f : goroutine → gset string, f (Running []) = ∅ → ⋃ (f <$> l) = ∅)
    as Hempty.
  { intros f Hf. induction Hfin as [|g l -> _ IH]; [done|].
    rewrite fmap_cons, union_list_cons, IH, Hf. set_solver. }
  rewrite !Hempty by done. by rewrite !(right_id_L ∅ (∪)).
Qed.

(** While a goroutine has not finished, [Wait] does not return. *)
Lemma Wait_blocked x g :
  consistent x → g ∈ spawned x → unfinished g = true → Wait (obj x) = None.
Proof.
  intros [Hwg _] Hin Hg. unfold Wait.
  pose proof (pending_pos _ _ Hin Hg). rewrite decide_False; [done|lia].
Qed.

Lemma Wait_Some a : Wait a = Some () ↔ wg a = 0%Z.
Proof. unfold Wait. case_decide; naive_solver. Qed.

(** *** Runs of a program *)

Lemma fmap_insert_alter {A B} (g : A → B) (f : B → B) (l : list A) i x x' :
  l !! i = Some x → g x' = f (g x) →
  g <$> <[i := x']> l = alter f i (g <$> l).
Proof.
  intros Hi Hg. apply list_eq. intros j. rewrite list_lookup_fmap.
  destruct (decide (i = j)) as [<-|Hne].
  - rewrite list_lookup_insert_eq by (by eapply lookup_lt_Some).
    rewrite list_lookup_alter_eq, list_lookup_fmap, Hi. simpl. by f_equal.
  - rewrite list_lookup_insert_ne, list_lookup_alter_ne by done.
    by rewrite list_lookup_fmap.
Qed.

Lemma settled_Authorizer r rs :
  settled {| obj := Authorizer r rs; spawned := [] |} = Authorizer r rs.
Proof.
  unfold settled, Authorizer. rewrite Add_eq. simpl.
  by rewrite !(right_id_L ∅ (∪)).
Qed.

Lemma settled_Add rs x :
  settled {| obj := Add rs (obj x); spawned := spawned x |} = Add rs (settled x).
Proof.
  unfold settled. rewrite !Add_eq. simpl. f_equal. set_solver.
Qed.

Lemma settled_AddAsync f x : settled (AddAsync f x) = AddSync f (settled x).
Proof.
  unfold settled, AddAsync, AddSync. simpl.
  rewrite !fmap_app, !union_list_app_L. simpl. rewrite !(right_id_L ∅ (∪)).
  destruct f as [rs err|]; simpl.
  - rewrite run_body_eq. simpl. f_equal; set_solver.
  - unfold stored_roles, stored_errors. simpl.
    by rewrite !(right_id_L ∅ (∪)).
Qed.

(** One event of a run, seen on the settled authorizers, is the event of
    the sequential reference. *)
Lemma apply_settled e s s' :
  apply e s = Some s' → settled <$> s' = apply_seq e (settled <$> s).
Proof.
  destruct e as [r rs|i rs|i f|i k]; simpl.
  - intros [= <-]. rewrite fmap_app. cbn [fmap list_fmap].
    by rewrite settled_Authorizer.
  - destruct (s !! i) as [x|] eqn:Hi; [|done]. intros [= <-].
    apply (fmap_insert_alter _ _ _ _ _ _ Hi), settled_Add.
  - destruct (s !! i) as [x|] eqn:Hi; [|done]. intros [= <-].
    apply (fmap_insert_alter _ _ _ _ _ _ Hi), settled_AddAsync.
  - destruct (s !! i) as [x|] eqn:Hi; [|done].
    destruct (step_goroutine k x) as [x'|] eqn:Hs; [|done]. intros [= <-].
    apply (fmap_insert_same _ _ _ _ _ Hi), (step_goroutine_settled _ _ _ Hs).
Qed.

Lemma apply_consistent e s s' :
  Forall consistent s → apply e s = Some s' → Forall consistent s'.
Proof.
  intros Hall. destruct e as [r rs|i rs|i f|i k]; simpl.
  - intros [= <-]. apply Forall_app. split; [done|].
    apply Forall_singleton, Authorizer_consistent.
  - destruct (s !! i) as [x|] eqn:Hi; [|done]. intros [= <-].
    apply Forall_insert; [done|].
    apply Add_consistent, (Forall_lookup_1 _ _ _ _ Hall Hi).
  - destruct (s !! i) as [x|] eqn:Hi; [|done]. intros [= <-].
    apply Forall_insert; [done|].
    apply AddAsync_consistent, (Forall_lookup_1 _ _ _ _ Hall Hi).
  - destruct (s !! i) as [x|] eqn:Hi; [|done].
    destruct (step_goroutine k x) as [x'|] eqn:Hs; [|done]. intros [= <-].
    apply Forall_insert; [done|].
    eapply step_goroutine_consistent; [|done].
    apply (Forall_lookup_1 _ _ _ _ Hall Hi).
Qed.

Lemma run_app es1 es2 s :
  run (es1 ++ es2) s = run es1 s ≫= run es2.
Proof.
  revert s. induction es1 as [|e es1 IH]; intros s; [done|].
  simpl. destruct (apply e s); [apply IH|done].
Qed.

Lemma run_consistent es : ∀ s s',
  Forall consistent s → run es s = Some s' → Forall consistent s'.
Proof.
  induction es as [|e es IH]; intros s s' Hall; simpl.
  - by intros [= <-].
  - destruct (apply e s) as [s1|] eqn:E; [|done].
    apply IH. by eapply apply_consistent.
Qed.

(** Whatever the interleaving, the settled authorizers of a run are those
    of the sequential reference. *)
Lemma run_settled es : ∀ s s',
  run es s = Some s' → settled <$> s' = run_seq es (settled <$> s).
Proof.
  induction es as [|e es IH]; intros s s'; simpl.
  - by intros [= <-].
  - destruct (apply e s) as [s1|] eqn:E; [|done].
    intros Hr. rewrite (IH _ _ Hr). by rewrite (apply_settled _ _ _ E).
Qed.

(** An authorizer whose counter is zero is the one the sequential
    reference computes from the same history. *)
Lemma run_quiescent es s i x :
  run es [] = Some s → s !! i = Some x → wg (obj x) = 0%Z →
  run_seq es [] !! i = Some (obj x).
Proof.
  intros Hr Hi H0.
  pose proof (run_consistent _ _ _ (Forall_nil_2 _) Hr) as Hall.
  pose proof (Forall_lookup_1 _ _ _ _ Hall Hi) as Hx.
  destruct (quiescent x Hx H0) as [-> _].
  change (@nil t) with (settled <$> @nil instance).
  by rewrite <-(run_settled _ _ _ Hr), list_lookup_fmap, Hi.
Qed.

(** *** Queries *)

Lemma string_app_assoc (s1 s2 s3 : string) :
  (s1 +:+ s2) +:+ s3 = s1 +:+ s2 +:+ s3.
Proof.
  induction s1 as [|c s1 IH]; [done|].
  change (String c ((s1 +:+ s2) +:+ s3) = String c (s1 +:+ s2 +:+ s3)).
  by rewrite IH.
Qed.

Lemma string_app_nil_r (s : string) : s +:+ "" = s.
Proof.
  induction s as [|c s IH]; [done|].
  change (String c (s +:+ "") = String c s). by rewrite IH.
Qed.

(** Every joined element can be read in the joined string. *)
Lemma Join_Contains elems sep m : m ∈ elems → Contains (Join elems sep) m.
Proof.
  induction elems as [|x [|y rest] IH]; intros Hin.
  - by apply elem_of_nil in Hin.
  - apply list_elem_of_singleton in Hin as ->. exists "", "".
    simpl. by rewrite string_app_nil_r.
  - apply elem_of_cons in Hin as [->|Hin].
    + by exists "", (sep +:+ Join (y :: rest) sep).
    + destruct (IH Hin) as (pre & post & Heq).
      exists (x +:+ sep +:+ pre), post.
      change (Join (x :: y :: rest) sep) with (x +:+ sep +:+ Join (y :: rest) sep).
      by rewrite Heq, !string_app_assoc.
Qed.

Lemma existsb_Permutation {A} (f : A → bool) (l1 l2 : list A) :
  l1 ≡ₚ l2 → existsb f l1 = existsb f l2.
Proof.
  induction 1 as [|x l1 l2 _ IH|x y l|l1 l2 l3 _ IH1 _ IH2]; simpl.
  - done.
  - by rewrite IH.
  - by destruct (f x), (f y).
  - by rewrite IH1.
Qed.

(** C6. Once [Wait] has returned, [HasPermission] answers [true] exactly
    when some role that the controller lists for the permission is held,
    in whatever order the roles are visited; for a permission the
    controller does not know the answer is [false]. *)
Theorem HasPermission_iff (a : t) (permission : string) :
  Wait a = Some () →
  ∃ b, HasPermission permission a = Some b
       ∧ (b = true ↔
          ∃ role, role ∈ at_key (permissionToRoleSet (rbac a)) permission
                  ∧ role ∈ roles a)
       ∧ (permissionToRoleSet (rbac a) !! permission = None → b = false)
       ∧ ∀ visit, visit ≡ₚ elements (at_key (permissionToRoleSet (rbac a)) permission) →
                  existsb (λ role, Load role (roles a)) visit = b.
Proof.
  intros Hw. unfold HasPermission. rewrite Hw. simpl.
  eexists. split; [done|]. split; [|split].
  - rewrite existsb_exists. split.
    + intros (role & Hin & Hl). exists role. split.
      * by apply elem_of_elements, list_elem_of_In.
      * by apply bool_decide_eq_true in Hl.
    + intros (role & Hin & Hl). exists role. split.
      * by apply list_elem_of_In, elem_of_elements.
      * by apply bool_decide_eq_true.
  - intros Hn. by rewrite (at_key_None _ _ Hn), elements_empty.
  - intros visit Hv. by apply existsb_Permutation.
Qed.

(** C8. Once [Wait] has returned, [Err] returns [nil] exactly when the
    error set is empty; otherwise it returns one error whose text joins
    the recorded messages, each of them once, in the order [Range] visits
    them.  Recording a message a second time changes nothing. *)
Theorem Err_nil_iff (range : gset string → list string) (a : t) :
  (∀ m, range m ≡ₚ elements m) → Wait a = Some () →
  (Err range a = Some None ↔ errors a = ∅)
  ∧ (errors a ≠ ∅ →
     Err range a = Some (Some (Join (range (errors a)) "; ")))
  ∧ NoDup (range (errors a))
  ∧ (∀ m, m ∈ range (errors a) ↔ m ∈ errors a)
  ∧ (∀ m, m ∈ errors a → ∃ msg, Err range a = Some (Some msg) ∧ Contains msg m)
  ∧ (∀ m, Store m (Store m (errors a)) = Store m (errors a)).
Proof.
  intros Hrange Hw. unfold Err. rewrite Hw. simpl.
  assert (∀ m, m ∈ range (errors a) ↔ m ∈ errors a) as Hin.
  { intros m. by rewrite Hrange, elem_of_elements. }
  assert (length (range (errors a)) = 0 ↔ errors a = ∅) as Hlen.
  { rewrite Hrange. split.
    - intros Hl. apply leibniz_equiv, elements_empty_inv.
      by apply nil_length_inv.
    - intros ->. by rewrite elements_empty. }
  split; [|split; [|split; [|split; [|split]]]].
  - case_decide as Hl; [by rewrite <-Hlen|].
    split; [done|]. intros He. by apply Hlen in He.
  - intros Hne. rewrite decide_False; [done|]. by rewrite Hlen.
  - rewrite Hrange. apply NoDup_elements.
  - done.
  - intros m Hm. rewrite decide_False.
    + eexists. split; [done|]. by apply Join_Contains, Hin.
    + rewrite Hlen. set_solver.
  - intros m. unfold Store. set_solver.
Qed.

(** *** What a call of [AddAsync] leaves behind *)

Lemma extends_refl a : extends a a.
Proof. by split. Qed.

Lemma extends_trans a b c : extends a b → extends b c → extends a c.
Proof.
  intros (? & ? & ?) (? & ? & ?). split; [congruence|]. split; set_solver.
Qed.

Lemma Add_extends rs a : extends a (Add rs a).
Proof. rewrite Add_eq. split; [done|]. simpl. split; set_solver. Qed.

Lemma AddSync_extends f a : extends a (AddSync f a).
Proof.
  destruct f as [rs err|]; simpl; [|apply extends_refl].
  rewrite run_body_eq. split; [done|]. simpl. split; set_solver.
Qed.

Lemma apply_seq_extends e s i a :
  s !! i = Some a → ∃ a', apply_seq e s !! i = Some a' ∧ extends a a'.
Proof.
  intros Hi. destruct e as [r rs|j rs|j f|j k]; simpl.
  - exists a. split; [by apply lookup_app_l_Some|apply extends_refl].
  - destruct (decide (j = i)) as [->|Hne].
    + exists (Add rs a). rewrite list_lookup_alter_eq, Hi.
      split; [done|apply Add_extends].
    + exists a. rewrite list_lookup_alter_ne by done.
      split; [done|apply extends_refl].
  - destruct (decide (j = i)) as [->|Hne].
    + exists (AddSync f a). rewrite list_lookup_alter_eq, Hi.
      split; [done|apply AddSync_extends].
    + exists a. rewrite list_lookup_alter_ne by done.
      split; [done|apply extends_refl].
  - exists a. split; [done|apply extends_refl].
Qed.

Lemma run_seq_extends es : ∀ s i a,
  s !! i = Some a → ∃ a', run_seq es s !! i = Some a' ∧ extends a a'.
Proof.
  induction es as [|e es IH]; intros s i a Hi; simpl.
  - exists a. split; [done|apply extends_refl].
  - destruct (apply_seq_extends e s i a Hi) as (a1 & H1 & He1).
    destruct (IH _ _ _ H1) as (a2 & H2 & He2).
    exists a2. split; [done|]. by eapply extends_trans.
Qed.

Lemma run_seq_app es1 es2 s :
  run_seq (es1 ++ es2) s = run_seq es2 (run_seq es1 s).
Proof. unfold run_seq. by rewrite foldl_app. Qed.

(** Whenever a query is answered after [AddAsync(f)] with [f] returning
    [rs, err], the returned roles are held and the messages of the call
    are recorded, whatever else happened in between. *)
Lemma AddAsync_outcome es es' i rs err s' x' :
  run (es ++ EAddAsync i (Returns rs err) :: es') [] = Some s' →
  s' !! i = Some x' → wg (obj x') = 0%Z →
  list_to_set rs ⊆ roles (obj x')
  ∧ stored_errors (body (rbac (obj x')) rs err) ⊆ errors (obj x').
Proof.
  intros Hr Hi H0. pose proof (run_quiescent _ _ _ _ Hr Hi H0) as Hseq.
  rewrite run_app in Hr.
  destruct (run es []) as [s1|] eqn:E1; [|done]. simpl in Hr.
  destruct (s1 !! i) as [x1|] eqn:Hi1; [|done].
  rewrite run_seq_app in Hseq. simpl in Hseq.
  pose proof (run_settled _ _ _ E1) as Hs1. simpl in Hs1.
  assert (run_seq es [] !! i = Some (settled x1)) as Hx1
    by (by rewrite <-Hs1, list_lookup_fmap, Hi1).
  destruct (run_seq_extends es' (alter (AddSync (Returns rs err)) i (run_seq es []))
              i (AddSync (Returns rs err) (settled x1))) as (a' & Ha' & Hrb & Hro & Her).
  { by rewrite list_lookup_alter_eq, Hx1. }
  unfold run_seq in Hseq, Ha'. rewrite Hseq in Ha'. simplify_eq.
  simpl in Hrb, Hro, Her. rewrite run_body_eq in Hrb, Hro, Her.
  simpl in *. rewrite Hrb. rewrite stored_roles_body in Hro.
  split; set_solver.
Qed.

Lemma Err_Contains (range : gset string → list string) a m :
  (∀ s, range s ≡ₚ elements s) → Wait a = Some () → m ∈ errors a →
  ∃ msg, Err range a = Some (Some msg) ∧ Contains msg m.
Proof.
  intros Hrange Hw Hm. unfold Err. rewrite Hw. simpl.
  assert (m ∈ range (errors a)) as Hin by (by rewrite Hrange, elem_of_elements).
  rewrite decide_False.
  - eexists. split; [done|]. by apply Join_Contains.
  - intros Hl. apply nil_length_inv in Hl. rewrite Hl in Hin.
    by apply elem_of_nil in Hin.
Qed.

Lemma AddSync_bump rs err a :
  AddSync (Returns rs err) a =
    bump (list_to_set rs) (stored_errors (body (rbac a) rs err)) a.
Proof. simpl. by rewrite run_body_eq, stored_roles_body. Qed.

Lemma apply_seq_bump R E e i (s : list t) :
  i < length s →
  apply_seq e (alter (bump R E) i s) = alter (bump R E) i (apply_seq e s).
Proof.
  intros Hi. destruct e as [r rs|j rs|j f|j k]; simpl.
  - by rewrite alter_app_l.
  - destruct (decide (j = i)) as [->|Hne];
      [|by apply list_alter_alter_ne].
    rewrite !list_alter_alter_eq.
    apply list_alter_ext; [|done]. intros a _. simpl.
    rewrite !Add_eq. unfold bump. simpl. f_equal. set_solver.
  - destruct (decide (j = i)) as [->|Hne];
      [|by apply list_alter_alter_ne].
    rewrite !list_alter_alter_eq.
    apply list_alter_ext; [|done]. intros a _. simpl.
    destruct f as [rs err|]; simpl; [|done].
    rewrite !run_body_eq. unfold bump. simpl. f_equal; set_solver.
  - done.
Qed.

Lemma apply_seq_length e (s : list t) :
  (length s ≤ length (apply_seq e s))%nat.
Proof.
  destruct e; simpl; rewrite ?length_app, ?length_alter; lia.
Qed.

Lemma run_seq_bump R E es : ∀ i (s : list t),
  i < length s →
  run_seq es (alter (bump R E) i s) = alter (bump R E) i (run_seq es s).
Proof.
  induction es as [|e es IH]; intros i s Hi; [done|].
  simpl. rewrite apply_seq_bump by done. apply IH.
  pose proof (apply_seq_length e s). lia.
Qed.

Lemma run_seq_calls es : ∀ s, run_seq es s = run_seq (calls es) s.
Proof.
  unfold calls. induction es as [|e es IH]; intros s; [done|].
  rewrite filter_cons. destruct e; simpl; by rewrite IH.
Qed.

(** Two runs of the same calls, one of them with one more [AddAsync]:
    when both are answered, the one with the call holds the roles of the
    other and the returned roles, and nothing else. *)
Lemma AddAsync_difference es es1 es2 i rs err s1 s2 x1 x2 :
  run (es ++ EAddAsync i (Returns rs err) :: es1) [] = Some s1 →
  run (es ++ es2) [] = Some s2 → calls es1 = calls es2 →
  s1 !! i = Some x1 → s2 !! i = Some x2 →
  wg (obj x1) = 0%Z → wg (obj x2) = 0%Z →
  obj x1 = bump (list_to_set rs) (stored_errors (body (rbac (obj x2)) rs err))
             (obj x2).
Proof.
  intros Hr1 Hr2 Hc Hi1 Hi2 Hw1 Hw2.
  pose proof (run_quiescent _ _ _ _ Hr1 Hi1 Hw1) as Hq1.
  pose proof (run_quiescent _ _ _ _ Hr2 Hi2 Hw2) as Hq2.
  rewrite run_app in Hr1. destruct (run es []) as [s0|] eqn:E0; [|done].
  simpl in Hr1. destruct (s0 !! i) as [x0|] eqn:Hi0; [|done].
  pose proof (run_settled _ _ _ E0) as Hs0. simpl in Hs0.
  assert (run_seq es [] !! i = Some (settled x0)) as Hx0
    by (by rewrite <-Hs0, list_lookup_fmap, Hi0).
  rewrite run_seq_app in Hq1, Hq2.
  rewrite (run_seq_calls es2), <-Hc, <-run_seq_calls in Hq2.
  change (run_seq (EAddAsync i (Returns rs err) :: es1) (run_seq es []))
    with (run_seq es1 (alter (AddSync (Returns rs err)) i (run_seq es [])))
    in Hq1.
  rewrite (list_alter_ext _
             (bump (list_to_set rs)
                (stored_errors (body (rbac (settled x0)) rs err)))
             _ (run_seq es []) i) in Hq1;
    [|intros a Ha; rewrite Hx0 in Ha; simplify_eq; apply AddSync_bump|done].
  rewrite run_seq_bump in Hq1 by (by eapply lookup_lt_Some).
  rewrite list_lookup_alter_eq, Hq2 in Hq1. simpl in Hq1.
  injection Hq1 as Hq1.
  destruct (run_seq_extends es1 _ _ _ Hx0) as (a' & Ha' & Hrb & _).
  rewrite Hq2 in Ha'. injection Ha' as <-. simpl in Hrb.
  by rewrite Hrb, Hq1.
Qed.

(** *** The goroutines do finish *)

Lemma sum_list_with_insert {A} (f : A → nat) (l : list A) k g g' :
  l !! k = Some g →
  sum_list_with f (<[k := g']> l) + f g = sum_list_with f l + f g'.
Proof.
  revert k. induction l as [|g0 l IH]; intros [|k] Hk; simplify_eq/=.
  - lia.
  - specialize (IH k Hk). lia.
Qed.

(** A goroutine that has not finished and does not hang can take a step,
    and [Done] does not panic. *)
Lemma step_goroutine_progress x k g :
  consistent x → spawned x !! k = Some g →
  unfinished g = true → g ≠ Calling Hangs →
  ∃ x', step_goroutine k x = Some x'
        ∧ total_work x' < total_work x
        ∧ (Forall (λ g, g ≠ Calling Hangs) (spawned x) →
           Forall (λ g, g ≠ Calling Hangs) (spawned x')).
Proof.
  intros [Hwg Hall] Hk Hg Hh. unfold step_goroutine, total_work. rewrite Hk.
  pose proof (pending_pos _ _ (list_elem_of_lookup_2 _ _ _ Hk) Hg) as Hpos.
  destruct g as [[rs err|]|[|act todo]]; try done.
  - eexists. split; [done|]. simpl.
    pose proof (sum_list_with_insert (work (rbac (obj x))) _ _ _
                  (Running (body (rbac (obj x)) rs err)) Hk) as Hs.
    simpl in Hs. split; [lia|]. intros Hno. by apply Forall_insert.
  - assert (∃ a', exec act (obj x) = Some a') as [a' Ha'].
    { destruct act; simpl; eauto. rewrite decide_False by lia. eauto. }
    rewrite Ha'. eexists. split; [done|]. simpl.
    rewrite (exec_rbac _ _ _ Ha').
    pose proof (sum_list_with_insert (work (rbac (obj x))) _ _ _
                  (Running todo) Hk) as Hs.
    simpl in Hs. split; [lia|]. intros Hno. by apply Forall_insert.
Qed.

(** From any state of a run, when none of the resolvers of an authorizer
    hangs, the scheduler can bring all its goroutines to their end. *)
Lemma goroutines_drain n : ∀ s i x,
  Forall consistent s → s !! i = Some x → (total_work x ≤ n)%nat →
  Forall (λ g, g ≠ Calling Hangs) (spawned x) →
  ∃ ks s' x', run (EStep i <$> ks) s = Some s' ∧ s' !! i = Some x'
              ∧ Forall (λ g, g = Running []) (spawned x')
              ∧ wg (obj x') = 0%Z.
Proof.
  induction n as [n IH] using lt_wf_ind. intros s i x Hcons Hi Hn Hno.
  pose proof (Forall_lookup_1 _ _ _ _ Hcons Hi) as Hx.
  destruct (decide (Forall (λ g, g = Running []) (spawned x))) as [Hfin|Hfin].
  - exists [], s, x. split; [done|]. split; [done|]. split; [done|].
    destruct Hx as [-> _]. clear -Hfin.
    induction Hfin as [|g l -> _ IH']; [done|].
    unfold pending in *. simpl. lia.
  - apply not_Forall_Exists in Hfin; [|intros ?; apply _].
    apply Exists_exists in Hfin as (g & Hin & Hg). simpl in Hg.
    apply list_elem_of_lookup in Hin as [k Hk].
    destruct (step_goroutine_progress x k g Hx Hk) as (x1 & Hs & Hlt & Hno1).
    { destruct g as [[|]|[|]]; done. }
    { eapply Forall_lookup_1 in Hno; [|exact Hk]. done. }
    assert (<[i := x1]> s !! i = Some x1) as Hi1
      by (apply list_lookup_insert_eq; by eapply lookup_lt_Some).
    destruct (IH (total_work x1) ltac:(lia) (<[i := x1]> s) i x1)
      as (ks & s' & x' & Hrun & Hi' & Hfin' & Hw'); [|done|lia|by apply Hno1|].
    { apply Forall_insert; [done|]. by eapply step_goroutine_consistent. }
    exists (k :: ks), s', x'. split; [|done].
    simpl. by rewrite Hi, Hs.
Qed.

Lemma pending_finished l : Forall (λ g, unfinished g = false) l → pending l = 0.
Proof.
  induction 1 as [|g l Hg _ IH]; [done|].
  unfold pending in *. simpl. rewrite Hg. lia.
Qed.

(** Steps of the goroutines of one authorizer leave the others alone. *)
Lemma run_steps_frame i ks : ∀ s s' j,
  run (EStep i <$> ks) s = Some s' → j ≠ i → s' !! j = s !! j.
Proof.
  induction ks as [|k ks IH]; intros s s' j; simpl.
  - by intros [= <-].
  - destruct (s !! i) as [x|]; [|done].
    destruct (step_goroutine k x) as [x1|]; [|done].
    intros Hr Hne. rewrite (IH _ _ _ Hr Hne).
    by apply list_lookup_insert_ne.
Qed.

(** *** The claims about authorizers *)

(** C4, as the code has it.  When the resolver returns an error, its
    message is recorded; the goroutine does not stop there, and the roles
    returned along with the error are added as after a success.  Compared
    with the same program without this call, the held roles are larger by
    exactly the returned list: nothing is added when that list is empty. *)
Theorem AddAsync_error_recorded
    (es es1 : list event) (i : nat) (rs : list string) (msg : string)
    (s1 : list instance) (x1 : instance) :
  run (es ++ EAddAsync i (Returns rs (Some msg)) :: es1) [] = Some s1 →
  s1 !! i = Some x1 → Wait (obj x1) = Some () →
  msg ∈ errors (obj x1)
  ∧ (∀ role, role ∈ rs → HasRole role (obj x1) = Some true)
  ∧ (∀ es2 s2 x2,
       run (es ++ es2) [] = Some s2 → calls es2 = calls es1 →
       s2 !! i = Some x2 → Wait (obj x2) = Some () →
       roles (obj x1) = list_to_set rs ∪ roles (obj x2)
       ∧ (rs = [] → roles (obj x1) = roles (obj x2))).
Proof.
  intros Hr Hi Hw. pose proof Hw as H0. apply Wait_Some in H0.
  destruct (AddAsync_outcome _ _ _ _ _ _ _ Hr Hi H0) as [Hro Her].
  split; [|split].
  - apply Her, elem_of_stored_errors_body. by left.
  - intros role Hin. unfold HasRole, Load. rewrite Hw. simpl.
    rewrite bool_decide_eq_true_2; [done|].
    apply Hro. by apply elem_of_list_to_set.
  - intros es2 s2 x2 Hr2 Hc Hi2 Hw2. apply Wait_Some in Hw2.
    rewrite (AddAsync_difference _ _ _ _ _ _ _ _ _ _ Hr Hr2 (eq_sym Hc) Hi Hi2 H0 Hw2).
    simpl. split; [done|]. intros ->. simpl. by rewrite (left_id_L ∅ (∪)).
Qed.

(** C5. When the resolver returns without error a role that the
    controller does not know, the message ["role <name> not allowed"] is
    recorded and the role is held all the same: once the goroutines have
    finished, [HasRole] answers [true] for it and the error that [Err]
    returns contains that message. *)
Theorem AddAsync_unknown_role_flagged_and_held
    (range : gset string → list string)
    (es es' : list event) (i : nat) (rs : list string) (role : string)
    (s' : list instance) (x' : instance) :
  (∀ m, range m ≡ₚ elements m) →
  run (es ++ EAddAsync i (Returns rs None) :: es') [] = Some s' →
  s' !! i = Some x' → Wait (obj x') = Some () →
  role ∈ rs → roleToPermissionSet (rbac (obj x')) !! role = None →
  ("role " +:+ role +:+ " not allowed") ∈ errors (obj x')
  ∧ HasRole role (obj x') = Some true
  ∧ ∃ msg, Err range (obj x') = Some (Some msg)
           ∧ Contains msg ("role " +:+ role +:+ " not allowed").
Proof.
  intros Hrange Hr Hi Hw Hin Hunknown. pose proof Hw as H0.
  apply Wait_Some in H0.
  destruct (AddAsync_outcome _ _ _ _ _ _ _ Hr Hi H0) as [Hro Her].
  assert (("role " +:+ role +:+ " not allowed") ∈ errors (obj x')) as Hflag.
  { apply Her, elem_of_stored_errors_body. right.
    apply elem_of_stored_errors_flags. by exists role. }
  split; [done|]. split.
  - unfold HasRole, Load. rewrite Hw. simpl.
    rewrite bool_decide_eq_true_2; [done|].
    apply Hro. by apply elem_of_list_to_set.
  - by apply Err_Contains.
Qed.

(** C9. In every run, as long as a goroutine started by [AddAsync] on an
    authorizer has not finished, [HasPermission], [HasRole] and [Err] on
    that authorizer do not return.  Once all its goroutines have finished
    they do return, whatever the goroutines of the other authorizers are
    doing, and the authorizer they read is the one the sequential reference
    computes from the calls of the program, so that two runs of the same
    calls give the same authorizer whatever the scheduler did.  When none
    of its resolvers hangs, the scheduler can always get there by steps of
    this authorizer's goroutines alone, leaving the others as they are. *)
Theorem queries_wait_for_own_goroutines
    (range : gset string → list string)
    (es : list event) (s : list instance) (i : nat) (x : instance)
    (permission role : string) :
  run es [] = Some s → s !! i = Some x →
  ((∃ g, g ∈ spawned x ∧ unfinished g = true) →
     HasPermission permission (obj x) = None
     ∧ HasRole role (obj x) = None
     ∧ Err range (obj x) = None)
  ∧ (Forall (λ g, unfinished g = false) (spawned x) →
     run_seq (calls es) [] !! i = Some (obj x)
     ∧ is_Some (HasPermission permission (obj x))
     ∧ is_Some (HasRole role (obj x))
     ∧ is_Some (Err range (obj x))
     ∧ ∀ es2 s2 x2,
         run es2 [] = Some s2 → calls es2 = calls es → s2 !! i = Some x2 →
         Forall (λ g, unfinished g = false) (spawned x2) → obj x2 = obj x)
  ∧ (Forall (λ g, g ≠ Calling Hangs) (spawned x) →
     ∃ ks s' x',
       run (es ++ (EStep i <$> ks)) [] = Some s' ∧ s' !! i = Some x'
       ∧ Forall (λ g, unfinished g = false) (spawned x')
       ∧ Wait (obj x') = Some ()
       ∧ ∀ j, j ≠ i → s' !! j = s !! j).
Proof.
  intros Hr Hi.
  pose proof (run_consistent _ _ _ (Forall_nil_2 _) Hr) as Hall.
  pose proof (Forall_lookup_1 _ _ _ _ Hall Hi) as Hx.
  split; [|split].
  - intros (g & Hin & Hg).
    unfold HasPermission, HasRole, Err.
    by rewrite (Wait_blocked _ _ Hx Hin Hg).
  - intros Hfin.
    assert (wg (obj x) = 0%Z) as H0.
    { destruct Hx as [-> _]. by rewrite pending_finished. }
    pose proof (proj2 (Wait_Some _) H0) as Hw.
    split; [|split; [|split; [|split]]].
    + rewrite <-run_seq_calls. by eapply run_quiescent.
    + unfold HasPermission. rewrite Hw. simpl. eauto.
    + unfold HasRole. rewrite Hw. simpl. eauto.
    + unfold Err. rewrite Hw. simpl. case_decide; eauto.
    + intros es2 s2 x2 Hr2 Hc Hi2 Hfin2.
      pose proof (run_consistent _ _ _ (Forall_nil_2 _) Hr2) as Hall2.
      pose proof (Forall_lookup_1 _ _ _ _ Hall2 Hi2) as Hx2.
      assert (wg (obj x2) = 0%Z) as H02.
      { destruct Hx2 as [-> _]. by rewrite pending_finished. }
      pose proof (run_quiescent _ _ _ _ Hr Hi H0) as Hq.
      pose proof (run_quiescent _ _ _ _ Hr2 Hi2 H02) as Hq2.
      rewrite run_seq_calls in Hq, Hq2. rewrite Hc, Hq in Hq2. by simplify_eq.
  - intros Hno.
    destruct (goroutines_drain (total_work x) s i x Hall Hi) as
      (ks & s' & x' & Hrun & Hi' & Hfin & Hw); [lia|done|].
    exists ks, s', x'. split; [by rewrite run_app, Hr|]. split; [done|].
    split; [by eapply Forall_impl; [exact Hfin|]; intros ? ->|].
    split; [by apply Wait_Some|].
    intros j Hj. by eapply run_steps_frame.
Qed.

End authorizer_facts.

(** * The properties on the chains of the test file *)

Lemma NoDup_by_decide {A} `{!EqDecision A} (l : list A) :
  bool_decide (NoDup l) = true → NoDup l.
Proof. apply bool_decide_eq_true_1. Defined.

(** The admin role of the test file holds the permissions of both [Add]
    calls of its chain. *)
Lemma role_grants_union_witness :
  NewRbac [authChain; accountChain] = (Some testRbac, None)
  ∧ is_Some (roleToPermissionSet testRbac !! flat_name "use.Account" "Admin")
  ∧ ∀ p, p ∈ at_key (roleToPermissionSet testRbac) (flat_name "use.Account" "Admin")
         ↔ declared_upto 2
             [("Member", ["get"]); ("Admin", ["update"; "delete"])] p.
Proof.
  split; [vm_compute; reflexivity|].
  destruct (role_grants_union "use.Account"
              [("Member", ["get"]); ("Admin", ["update"; "delete"])] 1
              "Admin" ["update"; "delete"] eq_refl) as [_ H].
  apply (H [authChain; accountChain]).
  - apply list_elem_of_further, list_elem_of_here.
  - vm_compute. reflexivity.
Defined.

(** [Add] is not set-based: a permission given twice along a chain stays
    twice in the list, and [NewRbac] refuses the chain. *)
Lemma Add_set_based_counterexample :
  "get" ∈ permissions (Add "Member" ["get"] (Chain "use.Account"))
  ∧ "get" ∈ ["get"; "update"; "delete"]
  ∧ Permissions <$> roles overlapChain =
      [["get"]; ["get"; "get"; "update"; "delete"]]
  ∧ NewRbac [overlapChain] =
      (None, Some "duplicate permission get in role use.Account.Admin").
Proof.
  split; [apply list_elem_of_here|]. split; [apply list_elem_of_here|].
  split; vm_compute; reflexivity.
Qed.

(** The same chain, through the general statement. *)
Lemma Add_appends_overlap_rejected_witness :
  ∃ p rn, NewRbac [overlapChain] =
    (None, Some ("duplicate permission " +:+ p +:+ " in role " +:+ rn)).
Proof.
  destruct (Add_appends_overlap_rejected
              (Add "Member" ["get"] (Chain "use.Account"))
              "Admin" ["get"; "update"; "delete"] [] [overlapChain])
    as (_ & _ & H).
  destruct H as [_ H].
  - exists "get". split; apply list_elem_of_here.
  - apply list_elem_of_here.
  - apply H. apply NoDup_by_decide. vm_compute. reflexivity.
Defined.

(** The three ways to fail, and the chains of the test file, which are
    accepted. *)
Lemma NewRbac_error_iff_witness :
  (∃ e, (NewRbac []).2 = Some e)
  ∧ (∃ e, (NewRbac [overlapChain]).2 = Some e)
  ∧ (∃ e, (NewRbac [accountChain; accountChain]).2 = Some e)
  ∧ ∃ r, (NewRbac [authChain; accountChain]).1 = Some r.
Proof.
  split; [|split; [|split]].
  - apply (proj1 (NewRbac_error_iff [])). by left.
  - apply (proj1 (NewRbac_error_iff [overlapChain])). right. right.
    exists overlapChain, {| Id := "Admin";
                            Permissions := ["get"; "get"; "update"; "delete"] |}.
    split; [apply list_elem_of_here|].
    split; [apply list_elem_of_further, list_elem_of_here|].
    by exists 0, 1, "get".
  - apply (proj1 (NewRbac_error_iff [accountChain; accountChain])).
    right. left. by exists 0, 2, "use.Account.Member".
  - apply (proj2 (proj2 (NewRbac_error_iff [authChain; accountChain]))).
    vm_compute. reflexivity.
Defined.

(** The tables of the test file agree on the admin role and [get]. *)
Lemma NewRbac_tables_inverse_witness :
  NewRbac [authChain; accountChain] = (Some testRbac, None)
  ∧ ("get" ∈ at_key (roleToPermissionSet testRbac) "use.Account.Admin"
     ↔ "use.Account.Admin" ∈ at_key (permissionToRoleSet testRbac) "get").
Proof.
  split; [vm_compute; reflexivity|].
  apply (NewRbac_tables_inverse [authChain; accountChain]).
  vm_compute. reflexivity.
Defined.

(** [Test_ChainHasRoleId] of the test file. *)
Example Test_ChainHasRoleId : ChainHasRoleId testRbac "use.Account" "Member" = true.
Proof. vm_compute. reflexivity. Qed.

Section authorizer_examples.
Import Authorizer.

(** [Test_HasPermission] of the test file, and the end-to-end property of
    the specification: the resolver returns the member role, and once
    [Err] has returned [nil] the member may get, and neither update nor
    list. *)
Example Test_HasPermission :
  let es := [ENew testRbac []; EAddAsync 0 (Returns ["use.Account.Member"] None);
             EStep 0 0; EStep 0 0; EStep 0 0] in
  run es [] = Some (outcome es) ∧ outcome es !! 0 = Some (final es 0)
  ∧ Err elements (obj (final es 0)) = Some None
  ∧ HasPermission "get" (obj (final es 0)) = Some true
  ∧ HasPermission "update" (obj (final es 0)) = Some false
  ∧ HasPermission "list" (obj (final es 0)) = Some false
  ∧ HasRole "use.Account.Member" (obj (final es 0)) = Some true.
Proof.
  intros es. do 6 (split; [vm_compute; reflexivity|]). vm_compute. reflexivity.
Qed.

(** A resolver that fails with ["boom"] and returns the admin role along
    with it: the error is reported and the role is held, with all its
    permissions. *)
Lemma AddAsync_error_counterexample :
  HasRole "use.Account.Admin" (Authorizer testRbac []) = Some false
  ∧ run failing_run [] = Some (outcome failing_run)
  ∧ outcome failing_run !! 0 = Some (final failing_run 0)
  ∧ Err elements (obj (final failing_run 0)) = Some (Some "boom")
  ∧ HasRole "use.Account.Admin" (obj (final failing_run 0)) = Some true
  ∧ HasPermission "delete" (obj (final failing_run 0)) = Some true.
Proof.
  do 5 (split; [vm_compute; reflexivity|]). vm_compute. reflexivity.
Qed.

(** The same run, through the general statement. *)
Lemma AddAsync_error_recorded_witness :
  run failing_run [] = Some (outcome failing_run)
  ∧ outcome failing_run !! 0 = Some (final failing_run 0)
  ∧ Wait (obj (final failing_run 0)) = Some ()
  ∧ "boom" ∈ errors (obj (final failing_run 0))
  ∧ (∀ role, role ∈ ["use.Account.Admin"] →
       HasRole role (obj (final failing_run 0)) = Some true)
  ∧ roles (obj (final failing_run 0)) =
      list_to_set ["use.Account.Admin"]
      ∪ roles (obj (final [ENew testRbac []] 0)).
Proof.
  split; [vm_compute; reflexivity|]. split; [vm_compute; reflexivity|].
  split; [vm_compute; reflexivity|].
  destruct (AddAsync_error_recorded [ENew testRbac []]
              [EStep 0 0; EStep 0 0; EStep 0 0; EStep 0 0] 0
              ["use.Account.Admin"] "boom"
              (outcome failing_run) (final failing_run 0)) as (H1 & H2 & H3).
  - vm_compute. reflexivity.
  - vm_compute. reflexivity.
  - vm_compute. reflexivity.
  - split; [exact H1|]. split; [exact H2|].
    apply (H3 [] (outcome [ENew testRbac []]) (final [ENew testRbac []] 0));
      vm_compute; reflexivity.
Defined.

(** A resolver that returns the unknown role ["ghost"]. *)
Lemma AddAsync_unknown_role_witness :
  run ghost_run [] = Some (outcome ghost_run)
  ∧ outcome ghost_run !! 0 = Some (final ghost_run 0)
  ∧ "role ghost not allowed" ∈ errors (obj (final ghost_run 0))
  ∧ HasRole "ghost" (obj (final ghost_run 0)) = Some true
  ∧ ∃ msg, Err elements (obj (final ghost_run 0)) = Some (Some msg)
           ∧ Contains msg "role ghost not allowed".
Proof.
  split; [vm_compute; reflexivity|]. split; [vm_compute; reflexivity|].
  apply (AddAsync_unknown_role_flagged_and_held elements
           [ENew testRbac []]
           [EStep 0 0; EStep 0 0; EStep 0 0; EStep 0 0] 0 ["ghost"] "ghost"
           (outcome ghost_run) (final ghost_run 0)).
  - reflexivity.
  - vm_compute. reflexivity.
  - vm_compute. reflexivity.
  - vm_compute. reflexivity.
  - apply list_elem_of_here.
  - vm_compute. reflexivity.
Defined.

(** An authorizer created with the member role, asked for [get]. *)
Lemma HasPermission_iff_witness :
  Wait (Authorizer testRbac ["use.Account.Member"]) = Some ()
  ∧ ∃ b, HasPermission "get" (Authorizer testRbac ["use.Account.Member"]) = Some b
         ∧ (b = true ↔
            ∃ role, role ∈ at_key (permissionToRoleSet
                                     (rbac (Authorizer testRbac ["use.Account.Member"])))
                             "get"
                    ∧ role ∈ roles (Authorizer testRbac ["use.Account.Member"])).
Proof.
  split; [vm_compute; reflexivity|].
  destruct (HasPermission_iff (Authorizer testRbac ["use.Account.Member"]) "get")
    as (b & Hb & Hiff & _).
  - vm_compute. reflexivity.
  - exists b. split; [exact Hb|exact Hiff].
Defined.

(** An authorizer with one recorded error. *)
Lemma Err_nil_iff_witness :
  Wait (mk testRbac ∅ 0 {["boom"]}) = Some ()
  ∧ (Err elements (mk testRbac ∅ 0 {["boom"]}) = Some None
     ↔ errors (mk testRbac ∅ 0 {["boom"]}) = ∅)
  ∧ ∃ msg, Err elements (mk testRbac ∅ 0 {["boom"]}) = Some (Some msg)
           ∧ Contains msg "boom".
Proof.
  split; [reflexivity|].
  destruct (Err_nil_iff elements (mk testRbac ∅ 0 {["boom"]}))
    as (H1 & _ & _ & _ & H5 & _).
  - reflexivity.
  - reflexivity.
  - split; [exact H1|]. apply H5. simpl. by apply elem_of_singleton.
Defined.

(** Two authorizers: the queries on the one whose resolver hangs do not
    return, those on the other do. *)
Lemma queries_wait_witness :
  run two_run [] = Some (outcome two_run)
  ∧ outcome two_run !! 0 = Some (final two_run 0)
  ∧ outcome two_run !! 1 = Some (final two_run 1)
  ∧ (HasPermission "get" (obj (final two_run 1)) = None
     ∧ HasRole "use.Account.Member" (obj (final two_run 1)) = None
     ∧ Err elements (obj (final two_run 1)) = None)
  ∧ run_seq (calls two_run) [] !! 0 = Some (obj (final two_run 0))
  ∧ is_Some (HasPermission "get" (obj (final two_run 0)))
  ∧ is_Some (HasRole "use.Account.Member" (obj (final two_run 0)))
  ∧ is_Some (Err elements (obj (final two_run 0))).
Proof.
  split; [vm_compute; reflexivity|]. split; [vm_compute; reflexivity|].
  split; [vm_compute; reflexivity|]. split.
  - destruct (queries_wait_for_own_goroutines elements two_run
                (outcome two_run) 1 (final two_run 1)
                "get" "use.Account.Member") as (H & _ & _).
    + vm_compute. reflexivity.
    + vm_compute. reflexivity.
    + apply H. exists (Calling Hangs). split; [|reflexivity].
      apply (bool_decide_eq_true_1 _). vm_compute. reflexivity.
  - destruct (queries_wait_for_own_goroutines elements two_run
                (outcome two_run) 0 (final two_run 0)
                "get" "use.Account.Member") as (_ & H & _).
    + vm_compute. reflexivity.
    + vm_compute. reflexivity.
    + destruct H as (H1 & H2 & H3 & H4 & _).
      * apply (bool_decide_eq_true_1 _). vm_compute. reflexivity.
      * split; [exact H1|]. split; [exact H2|]. split; [exact H3|exact H4].
Defined.

End authorizer_examples.

(** * Further properties of the chains and the controller *)

(** ** Chains grow by prefixes *)

Lemma concat_take_prefix (decls : list (string * list string)) (j k : nat) :
  (j ≤ k)%nat → concat (take j decls).*2 `prefix_of` concat (take k decls).*2.
Proof.
  intros Hjk. exists (concat (drop j (take k decls)).*2).
  rewrite <-concat_app, <-fmap_app.
  rewrite <-(take_drop j (take k decls)) at 1.
  by rewrite take_take, Nat.min_l by done.
Qed.

(** X4. In a chain built by [Chain] and [Add] calls the roles carry the
    ids of the calls in call order, the permission list of every role is a
    prefix of the list of every later role, and the cumulative list of the
    chain is the list of its last role. *)
Theorem chain_roles_grow (nm : string) (decls : list (string * list string)) :
  Id <$> roles (build nm decls) = decls.*1
  ∧ (∀ (j k : nat) rj rk,
       (j ≤ k)%nat → roles (build nm decls) !! j = Some rj →
       roles (build nm decls) !! k = Some rk →
       Permissions rj `prefix_of` Permissions rk)
  ∧ (∀ r, last (roles (build nm decls)) = Some r →
          Permissions r = permissions (build nm decls)).
Proof.
  split; [|split].
  - rewrite build_roles. apply list_eq. intros k.
    rewrite !list_lookup_fmap, list_lookup_imap. by destruct (decls !! k).
  - intros j k rj rk Hjk Hj Hk. rewrite build_roles in Hj, Hk.
    rewrite list_lookup_imap in Hj, Hk.
    destruct (decls !! j) as [dj|]; [|done].
    destruct (decls !! k) as [dk|]; [|done].
    simplify_eq/=. apply concat_take_prefix. lia.
  - induction decls as [|d decls _] using rev_ind; [done|].
    rewrite build_snoc. simpl. rewrite last_snoc. by intros r [= <-].
Qed.

(** ** The tables of a controller *)

(** X6. In a controller that [NewRbac] returns, a permission lists exactly
    the flattened names of the roles whose permission list holds it, the
    role table has exactly the flattened names as keys, and each of them
    maps to the set of the permission list of its role. *)
Theorem NewRbac_tables_exact (chains : list RoleChain) (r : Rbac) (e : option string) :
  NewRbac chains = (Some r, e) →
  (∀ p rn,
     rn ∈ at_key (permissionToRoleSet r) p ↔
     ∃ c role, c ∈ chains ∧ role ∈ roles c
               ∧ rn = flat_name (name c) (Id role) ∧ p ∈ Permissions role)
  ∧ (∀ rn,
       is_Some (roleToPermissionSet r !! rn) ↔
       ∃ c role, c ∈ chains ∧ role ∈ roles c ∧ rn = flat_name (name c) (Id role))
  ∧ (∀ c role, c ∈ chains → role ∈ roles c →
       roleToPermissionSet r !! flat_name (name c) (Id role) =
         Some (list_to_set (Permissions role))).
Proof.
  intros (_ & _ & _ & Hi)%NewRbac_Some. split; [|split].
  - intros p rn. rewrite (indexed_p2r _ _ Hi). split.
    + intros (perms & (c & role & ? & ? & ? & ->)%flat_roles_elem & ?).
      by exists c, role.
    + intros (c & role & Hc & Hr & -> & Hp). exists (Permissions role).
      split; [|done]. apply flat_roles_elem. by exists c, role.
  - intros rn. split.
    + intros Hs. apply (indexed_dom _ _ Hi) in Hs.
      apply list_elem_of_fmap in Hs as ([rn' perms] & -> & Hin).
      apply flat_roles_elem in Hin as (c & role & ? & ? & ? & _).
      by exists c, role.
    + intros (c & role & Hc & Hr & ->).
      rewrite (indexed_r2p _ _ Hi _ (Permissions role)); [by eauto|].
      apply flat_roles_elem. by exists c, role.
  - intros c role Hc Hr. apply (indexed_r2p _ _ Hi).
    apply flat_roles_elem. by exists c, role.
Qed.

(** ** Where an error of [NewRbac] comes from *)

Lemma forM_Error_inv {A S} (f : S → A → result S) (l : list A) : ∀ st e,
  forM f l st = Error e →
  ∃ l1 x l2 st', l = l1 ++ x :: l2 ∧ forM f l1 st = Ok st' ∧ f st' x = Error e.
Proof.
  induction l as [|x l IH]; intros st e; simpl; [done|].
  destruct (f st x) as [st1|e1] eqn:E.
  - intros (l1 & y & l2 & st' & -> & Hok & Herr)%IH.
    exists (x :: l1), y, l2, st'. simpl. by rewrite E.
  - intros [= <-]. by exists [], x, l, st.
Qed.

(** A loop that went through has loaded what it visited. *)
Lemma forM_loads_sound {A} (f : Rbac → A → result Rbac)
    (key : A → list (string * list string)) (l : list A) done st st' :
  loads_ok f key → loads_err f key →
  indexed done st → NoDup done.*1 → forM f l st = Ok st' →
  indexed (done ++ l ≫= key) st' ∧ NoDup (done ++ l ≫= key).*1.
Proof.
  intros Hok Herr Hi Hnd Hrun.
  destruct (decide (NoDup (done ++ l ≫= key).*1
                    ∧ Forall (λ d, NoDup d.2) (l ≫= key))) as [[Hn Hp]|Hbad].
  - destruct (forM_loads_ok f key Hok l done st Hi Hn Hp) as (st'' & Heq & Hi').
    rewrite Hrun in Heq. by simplify_eq.
  - destruct (forM_loads_err f key Hok Herr l done st Hi Hnd Hbad) as [e He].
    by rewrite Hrun in He.
Qed.

(** The permission loop fails at the first permission met before. *)
Lemma forM_add_permission_Error done rn perms : ∀ st seen e,
  indexed (done ++ [(rn, seen)]) st → rn ∉ done.*1 →
  forM (add_permission rn) perms st = Error e →
  ∃ l1 p l2, perms = l1 ++ p :: l2 ∧ p ∈ seen ++ l1
             ∧ e = "duplicate permission " +:+ p +:+ " in role " +:+ rn.
Proof.
  induction perms as [|p perms IH]; intros st seen e Hi Hrn; simpl; [done|].
  destruct (decide (p ∈ seen)) as [Hp|Hp].
  - rewrite (add_permission_dup _ _ _ _ _ Hi Hp). intros [= <-].
    exists [], p, perms. by rewrite app_nil_r.
  - destruct (add_permission_fresh _ _ _ _ _ Hi Hrn Hp) as (st' & -> & Hi' & _).
    intros (l1 & q & l2 & -> & Hq & ->)%(IH _ _ _ Hi' Hrn).
    exists (p :: l1), q, l2. split; [done|]. split; [|done].
    rewrite <-(assoc_L (++)) in Hq. done.
Qed.

Lemma add_role_Error done cn st role e :
  indexed done st → add_role cn st role = Error e →
  (flat_name cn (Id role) ∈ done.*1
   ∧ e = "duplicate role " +:+ flat_name cn (Id role))
  ∨ (∃ l1 p l2, Permissions role = l1 ++ p :: l2 ∧ p ∈ l1
       ∧ e = "duplicate permission " +:+ p +:+ " in role "
               +:+ flat_name cn (Id role)).
Proof.
  intros Hi. unfold add_role. case_decide as Hs.
  - intros [= <-]. left. split; [|done]. by apply (indexed_dom _ _ Hi).
  - intros Herr. right.
    assert (flat_name cn (Id role) ∉ done.*1) as Hrn.
    { intros Hin. apply Hs. by eapply indexed_known. }
    eapply forM_add_permission_Error in Herr;
      [|by apply (indexed_open done _ st), Hrn|done].
    destruct Herr as (l1 & p & l2 & ? & ? & ?). by exists l1, p, l2.
Qed.

(** X5. Every error that [NewRbac] returns is one of three messages and
    names a real offender: ["no role chains provided"] for an empty list;
    ["duplicate role <name>"] for a flattened name that two roles share;
    ["duplicate permission <p> in role <name>"] for a permission that is
    twice in the list of a role with that flattened name. *)
Theorem NewRbac_error_provenance (chains : list RoleChain) (e : string) :
  (NewRbac chains).2 = Some e →
  (chains = [] ∧ e = "no role chains provided")
  ∨ (∃ rn (i j : nat),
       i < j ∧ (flat_roles chains).*1 !! i = Some rn
       ∧ (flat_roles chains).*1 !! j = Some rn
       ∧ e = "duplicate role " +:+ rn)
  ∨ (∃ c role p (i j : nat),
       c ∈ chains ∧ role ∈ roles c ∧ i < j
       ∧ Permissions role !! i = Some p ∧ Permissions role !! j = Some p
       ∧ e = "duplicate permission " +:+ p +:+ " in role "
               +:+ flat_name (name c) (Id role)).
Proof.
  unfold NewRbac. case_decide as Hl.
  { intros [= <-]. left. split; [|done]. by destruct chains. }
  destruct (forM add_chain chains empty_rbac) as [?|e'] eqn:E; [done|].
  intros [= ->]. right.
  apply forM_Error_inv in E as (cs1 & c & cs2 & st1 & -> & Hok1 & Herr1).
  destruct (forM_loads_sound _ _ _ _ _ _ add_chain_loads_ok add_chain_loads_err
              indexed_empty (NoDup_nil_2) Hok1) as [Hi1 Hnd1].
  simpl in Hi1, Hnd1. unfold add_chain in Herr1.
  apply forM_Error_inv in Herr1 as (rs1 & role & rs2 & st2 & Hroles & Hok2 & Herr2).
  destruct (forM_loads_sound _ _ _ _ _ _ (add_role_loads_ok (name c))
              (add_role_loads_err (name c))
              (indexed_c2r _ _ _ Hi1) Hnd1 Hok2) as [Hi2 Hnd2].
  assert (flat_roles (cs1 ++ c :: cs2) =
          ((cs1 ≫= chain_key) ++ (rs1 ≫= role_key (name c)))
          ++ (flat_name (name c) (Id role), Permissions role)
          :: ((λ r, (flat_name (name c) (Id r), Permissions r)) <$> rs2)
             ++ flat_roles cs2) as Hflat.
  { unfold flat_roles. rewrite bind_app, bind_cons, Hroles.
    rewrite bind_role_key, fmap_app, fmap_cons.
    by rewrite <-!(assoc_L (++)). }
  apply (f_equal (fmap fst)) in Hflat.
  rewrite (fmap_app fst _ (_ :: _)), (fmap_cons fst) in Hflat. simpl in Hflat.
  destruct (add_role_Error _ _ _ _ _ Hi2 Herr2)
    as [[Hin ->]|(l1 & p & l2 & Hperms & Hp & ->)].
  - left. apply list_elem_of_lookup in Hin as [i Hi].
    exists (flat_name (name c) (Id role)), i,
      (length ((cs1 ≫= chain_key) ++ (rs1 ≫= role_key (name c))).*1).
    rewrite Hflat.
    split; [by eapply lookup_lt_Some|].
    split; [by apply lookup_app_l_Some|]. split; [|done].
    by rewrite list_lookup_middle.
  - right. apply list_elem_of_lookup in Hp as [i Hi].
    exists c, role, p, i, (length l1).
    split; [apply elem_of_app; right; by left|].
    split; [rewrite Hroles; apply elem_of_app; right; by left|].
    split; [by eapply lookup_lt_Some|]. rewrite Hperms.
    split; [by apply lookup_app_l_Some|]. split; [|done].
    by rewrite list_lookup_middle.
Qed.

(** ** What [ChainHasRoleId] reads *)

(** X1. On a controller that [NewRbac] returns, [ChainHasRoleId] answers
    for the last chain of that name in the list given to [NewRbac]: it is
    [true] exactly when that chain has a role of that id.  The chain table
    has exactly the names of the chains as keys. *)
Theorem ChainHasRoleId_reads_last_chain
    (chains : list RoleChain) (r : Rbac) (e : option string) (cn id : string) :
  NewRbac chains = (Some r, e) →
  (ChainHasRoleId r cn id = true ↔
   ∃ c, last (filter (λ c, name c = cn) chains) = Some c ∧ id ∈ Id <$> roles c)
  ∧ (is_Some (chainToRoleIdSet r !! cn) ↔ cn ∈ name <$> chains).
Proof.
  intros Hnew. split; [by eapply ChainHasRoleId_last|].
  rewrite (NewRbac_c2r _ _ _ cn Hnew).
  destruct (last (filter (λ c, name c = cn) chains)) as [c|] eqn:El; simpl.
  - split; [|by eauto]. intros _.
    apply last_filter_elem in El as [Hc <-].
    apply list_elem_of_fmap. by exists c.
  - split; [by intros [? ?]|].
    intros (c & -> & Hc)%list_elem_of_fmap. exfalso.
    apply last_None in El.
    assert (c ∈ filter (λ c', name c' = name c) chains) as Hin
      by (by apply list_elem_of_filter).
    rewrite El in Hin. by apply elem_of_nil in Hin.
Qed.

(** * Further properties of the authorizers *)

Section authorizer_more.
Import Authorizer.

Lemma HasPermission_Some_true a p :
  HasPermission p a = Some true ↔
  Wait a = Some ()
  ∧ ∃ role, role ∈ at_key (permissionToRoleSet (rbac a)) p ∧ role ∈ roles a.
Proof.
  unfold HasPermission. destruct (Wait a) as [[]|]; simpl.
  - split.
    + intros [= Hex]. split; [done|].
      apply existsb_exists in Hex as (role & Hin & Hl). exists role. split.
      * by apply elem_of_elements, list_elem_of_In.
      * by apply bool_decide_eq_true in Hl.
    + intros [_ (role & Hin & Hl)]. f_equal. apply existsb_exists.
      exists role. split.
      * by apply list_elem_of_In, elem_of_elements.
      * by apply bool_decide_eq_true.
  - split; [done|]. by intros [? _].
Qed.

Lemma HasPermission_Some_false a p :
  HasPermission p a = Some false ↔
  Wait a = Some ()
  ∧ ∀ role, role ∈ at_key (permissionToRoleSet (rbac a)) p → role ∉ roles a.
Proof.
  pose proof (HasPermission_Some_true a p) as Ht. revert Ht.
  unfold HasPermission. destruct (Wait a) as [[]|]; simpl.
  - destruct (existsb _ _) eqn:Eb; intros Ht.
    + split; [done|]. intros [_ Hno].
      destruct Ht as [Ht _]. destruct (Ht eq_refl) as [_ (role & ? & ?)].
      by destruct (Hno role).
    + split; [|done]. intros _. split; [done|]. intros role Hin Hheld.
      destruct Ht as [_ Ht].
      assert (Some false = Some true) as Hf by (apply Ht; eauto). done.
  - intros _. split; [done|]. by intros [? _].
Qed.

Lemma HasRole_Some a role b :
  HasRole role a = Some b ↔ Wait a = Some () ∧ b = bool_decide (role ∈ roles a).
Proof.
  unfold HasRole, Load. destruct (Wait a) as [[]|]; simpl; naive_solver.
Qed.

(** ** From the chains to the answers *)

(** X7. Inheritance along a chain, end to end: in a controller built from
    a list holding the chain, an authorizer that holds the flattened name
    of the role of the [k]-th [Add] call is granted every permission
    given to that call or to an earlier one. *)
Theorem later_role_inherits
    (nm : string) (decls : list (string * list string)) (j k : nat)
    (idj idk : string) (pj pk : list string)
    (chains : list RoleChain) (r : Rbac) (e : option string) (a : t) (p : string) :
  (j ≤ k)%nat → decls !! j = Some (idj, pj) → decls !! k = Some (idk, pk) →
  build nm decls ∈ chains → NewRbac chains = (Some r, e) →
  rbac a = r → Wait a = Some () → flat_name nm idk ∈ roles a → p ∈ pj →
  HasPermission p a = Some true.
Proof.
  intros Hjk Hj Hk Hc (_ & _ & _ & Hi)%NewRbac_Some <- Hw Hheld Hp.
  apply HasPermission_Some_true. split; [done|].
  exists (flat_name nm idk). split; [|done].
  apply (indexed_p2r _ _ Hi).
  exists (concat (take (S k) decls).*2). split.
  - apply flat_roles_elem. eexists _, _. split; [exact Hc|]. split.
    + eapply list_elem_of_lookup_2, build_roles_lookup, Hk.
    + by rewrite build_name.
  - apply elem_of_concat_take_snd. exists j, (idj, pj).
    split; [lia|]. by split.
Qed.

(** X8. Roles that the controller does not know grant nothing: an
    authorizer that holds only such roles is refused every permission. *)
Theorem unknown_roles_inert
    (chains : list RoleChain) (r : Rbac) (e : option string) (a : t) (p : string) :
  NewRbac chains = (Some r, e) → rbac a = r → Wait a = Some () →
  (∀ role, role ∈ roles a → roleToPermissionSet r !! role = None) →
  HasPermission p a = Some false.
Proof.
  intros (_ & _ & _ & Hi)%NewRbac_Some <- Hw Hunknown.
  apply HasPermission_Some_false. split; [done|].
  intros role (perms & Hin & _)%(indexed_p2r _ _ Hi) Hheld.
  specialize (Hunknown role Hheld).
  by rewrite (indexed_r2p _ _ Hi _ _ Hin) in Hunknown.
Qed.

(** ** The synchronous path *)

(** X9. An authorizer made by [Authorizer(rs...)] and then [Add(rs'...)]
    answers at once, holds exactly the roles of the two lists, and has no
    error, whether the controller knows the roles or not: the synchronous
    path never validates. *)
Theorem Authorizer_Add_holds
    (range : gset string → list string)
    (rb : Rbac) (rs rs' : list string) (role : string) :
  (∀ m, range m ≡ₚ elements m) →
  HasRole role (Add rs' (Authorizer rb rs))
    = Some (bool_decide (role ∈ rs ∨ role ∈ rs'))
  ∧ Err range (Add rs' (Authorizer rb rs)) = Some None
  ∧ rbac (Add rs' (Authorizer rb rs)) = rb.
Proof.
  intros Hrange. unfold Authorizer. rewrite !Add_eq. simpl.
  split; [|split; [|done]].
  - apply HasRole_Some. split; [done|]. simpl.
    apply bool_decide_ext. rewrite !elem_of_union, !elem_of_list_to_set.
    set_solver.
  - unfold Err. simpl.
    assert (range ∅ = []) as ->.
    { apply Permutation_nil_r. by rewrite Hrange, elements_empty. }
    done.
Qed.

(** X10. [Add] is idempotent, the order of two [Add] calls does not
    matter, and one call with two lists is the two calls in a row. *)
Theorem Add_idempotent_commutative (rs1 rs2 : list string) (a : t) :
  Add rs1 (Add rs1 a) = Add rs1 a
  ∧ Add rs1 (Add rs2 a) = Add rs2 (Add rs1 a)
  ∧ Add (rs1 ++ rs2) a = Add rs2 (Add rs1 a).
Proof.
  rewrite !Add_eq. simpl. split; [|split]; f_equal.
  - set_solver.
  - set_solver.
  - rewrite list_to_set_app_L. set_solver.
Qed.

(** ** The wait group *)

(** X11. In every run the counter of the wait group of an authorizer is
    the number of its goroutines that have not finished, so it is never
    negative, and every goroutine that has not finished and is not stuck
    in a resolver that hangs can take its next step: [wg.Done()] never
    panics. *)
Theorem wg_counts_unfinished
    (es : list event) (s : list instance) (i : nat) (x : instance) :
  run es [] = Some s → s !! i = Some x →
  wg (obj x) = Z.of_nat (pending (spawned x))
  ∧ (0 ≤ wg (obj x))%Z
  ∧ ∀ k g, spawned x !! k = Some g → unfinished g = true →
           g ≠ Calling Hangs → is_Some (step_goroutine k x).
Proof.
  intros Hr Hi.
  pose proof (run_consistent _ _ _ (Forall_nil_2 _) Hr) as Hall.
  pose proof (Forall_lookup_1 _ _ _ _ Hall Hi) as Hx.
  split; [by destruct Hx|]. split; [destruct Hx as [-> _]; lia|].
  intros k g Hk Hg Hh.
  destruct (step_goroutine_progress x k g Hx Hk Hg Hh) as (x' & -> & _).
  by eexists.
Qed.

(** ** A resolver that never returns *)

Lemma step_goroutine_spawned k x x' :
  step_goroutine k x = Some x' →
  ∃ g g', spawned x !! k = Some g ∧ g ≠ Calling Hangs
          ∧ spawned x' = <[k := g']> (spawned x).
Proof.
  unfold step_goroutine. intros Hs.
  destruct (spawned x !! k) as [[[rs err|]|[|act todo]]|] eqn:Hk;
    simplify_eq/=.
  - by eexists _, _.
  - destruct (exec act (obj x)); simplify_eq/=. by eexists _, _.
Qed.

Lemma apply_keeps_hang e s s' i x k :
  apply e s = Some s' → s !! i = Some x →
  spawned x !! k = Some (Calling Hangs) →
  ∃ x', s' !! i = Some x' ∧ spawned x' !! k = Some (Calling Hangs).
Proof.
  intros Ha Hi Hk.
  assert (i < length s) as Hlt by (by eapply lookup_lt_Some).
  destruct e as [r rs|j rs|j f|j k']; simpl in Ha.
  - simplify_eq. exists x. split; [by apply lookup_app_l_Some|done].
  - destruct (s !! j) as [y|] eqn:Hj; simplify_eq.
    destruct (decide (j = i)) as [->|Hne].
    + simplify_eq. eexists. split; [by apply list_lookup_insert_eq|done].
    + exists x. by rewrite list_lookup_insert_ne.
  - destruct (s !! j) as [y|] eqn:Hj; simplify_eq.
    destruct (decide (j = i)) as [->|Hne].
    + simplify_eq. eexists. split; [by apply list_lookup_insert_eq|].
      simpl. by apply lookup_app_l_Some.
    + exists x. by rewrite list_lookup_insert_ne.
  - destruct (s !! j) as [y|] eqn:Hj; simplify_eq.
    destruct (step_goroutine k' y) as [y'|] eqn:Hs; simplify_eq.
    destruct (decide (j = i)) as [->|Hne].
    + simplify_eq. exists y'. split; [by apply list_lookup_insert_eq|].
      apply step_goroutine_spawned in Hs as (g & g' & Hg & Hh & ->).
      destruct (decide (k' = k)) as [->|Hk']; [congruence|].
      by rewrite list_lookup_insert_ne.
    + exists x. by rewrite list_lookup_insert_ne.
Qed.

Lemma run_keeps_hang es : ∀ s s' i x k,
  run es s = Some s' → s !! i = Some x →
  spawned x !! k = Some (Calling Hangs) →
  ∃ x', s' !! i = Some x' ∧ spawned x' !! k = Some (Calling Hangs).
Proof.
  induction es as [|e es IH]; intros s s' i x k; simpl.
  - intros [= <-] ? ?. by exists x.
  - destruct (apply e s) as [s1|] eqn:E; [|done]. intros Hr Hi Hk.
    destruct (apply_keeps_hang _ _ _ _ _ _ E Hi Hk) as (x1 & Hi1 & Hk1).
    by eapply IH.
Qed.

(** X12. After [AddAsync(f)] with a resolver [f] that never returns, no
    query on that authorizer ever returns again, whatever the program and
    the scheduler do afterwards. *)
Theorem hanging_resolver_blocks
    (range : gset string → list string)
    (es es' : list event) (i : nat) (s : list instance)
    (permission role : string) :
  run (es ++ EAddAsync i Hangs :: es') [] = Some s →
  ∃ x, s !! i = Some x
       ∧ HasPermission permission (obj x) = None
       ∧ HasRole role (obj x) = None
       ∧ Err range (obj x) = None.
Proof.
  intros Hr.
  pose proof (run_consistent _ _ _ (Forall_nil_2 _) Hr) as Hall.
  rewrite run_app in Hr. destruct (run es []) as [s0|]; [|done].
  simpl in Hr. destruct (s0 !! i) as [x0|] eqn:Hi0; [|done].
  destruct (run_keeps_hang es' (<[i := AddAsync Hangs x0]> s0) s i
              (AddAsync Hangs x0) (length (spawned x0)) Hr)
    as (x & Hi & Hk).
  { apply list_lookup_insert_eq. by eapply lookup_lt_Some. }
  { simpl. by rewrite list_lookup_middle. }
  exists x. split; [done|].
  pose proof (Forall_lookup_1 _ _ _ _ Hall Hi) as Hx.
  unfold HasPermission, HasRole, Err.
  by rewrite (Wait_blocked x (Calling Hangs) Hx (list_elem_of_lookup_2 _ _ _ Hk)).
Qed.

(** ** What a call of [AddAsync] adds *)

Lemma stored_errors_body_known r rs :
  (∀ role, role ∈ rs → is_Some (roleToPermissionSet r !! role)) →
  stored_errors (body r rs None) = ∅.
Proof.
  intros Hknown. apply set_eq. intros m.
  rewrite elem_of_stored_errors_body, elem_of_stored_errors_flags.
  split; [|set_solver].
  intros [?|(role & Hin & Hnone & _)]; [done|].
  destruct (Hknown role Hin) as [? Hs]. by rewrite Hs in Hnone.
Qed.

(** X13. What one [AddAsync] call adds, for any result [rs, err] of the
    resolver: compared with the same program without the call, the
    answered authorizer holds exactly the returned roles in addition, and
    has in addition exactly the message of [err], if any, and one message
    ["role <name> not allowed"] for each returned role that the controller
    does not know.  So a resolver that returns without error roles that are
    all known leaves the errors as they are. *)
Theorem AddAsync_adds_exactly
    (es es1 es2 : list event) (i : nat) (rs : list string) (err : option string)
    (s1 s2 : list instance) (x1 x2 : instance) :
  run (es ++ EAddAsync i (Returns rs err) :: es1) [] = Some s1 →
  run (es ++ es2) [] = Some s2 → calls es1 = calls es2 →
  s1 !! i = Some x1 → s2 !! i = Some x2 →
  Wait (obj x1) = Some () → Wait (obj x2) = Some () →
  rbac (obj x1) = rbac (obj x2)
  ∧ roles (obj x1) = list_to_set rs ∪ roles (obj x2)
  ∧ (∀ m, m ∈ errors (obj x1) ↔
          m ∈ errors (obj x2) ∨ err = Some m
          ∨ ∃ role, role ∈ rs
                    ∧ roleToPermissionSet (rbac (obj x2)) !! role = None
                    ∧ m = "role " +:+ role +:+ " not allowed")
  ∧ (err = None →
     (∀ role, role ∈ rs →
              is_Some (roleToPermissionSet (rbac (obj x2)) !! role)) →
     errors (obj x1) = errors (obj x2)).
Proof.
  intros Hr1 Hr2 Hc Hi1 Hi2 Hw1%Wait_Some Hw2%Wait_Some.
  rewrite (AddAsync_difference _ _ _ _ _ _ _ _ _ _ Hr1 Hr2 Hc Hi1 Hi2 Hw1 Hw2).
  simpl. split; [done|]. split; [done|]. split.
  - intros m.
    rewrite elem_of_union, elem_of_stored_errors_body,
      elem_of_stored_errors_flags. tauto.
  - intros -> Hknown. rewrite stored_errors_body_known by done.
    by rewrite (left_id_L ∅ (∪)).
Qed.

(** X14. The error of a resolver comes out of [Err]: whenever [Err]
    returns after [AddAsync(f)] with [f] failing with message [msg], it
    returns an error, and the text of that error contains [msg]. *)
Theorem AddAsync_error_in_Err
    (range : gset string → list string)
    (es es' : list event) (i : nat) (rs : list string) (msg : string)
    (s : list instance) (x : instance) :
  (∀ m, range m ≡ₚ elements m) →
  run (es ++ EAddAsync i (Returns rs (Some msg)) :: es') [] = Some s →
  s !! i = Some x → Wait (obj x) = Some () →
  ∃ text, Err range (obj x) = Some (Some text) ∧ Contains text msg.
Proof.
  intros Hrange Hr Hi Hw. pose proof Hw as H0. apply Wait_Some in H0.
  destruct (AddAsync_outcome _ _ _ _ _ _ _ Hr Hi H0) as [_ Her].
  apply Err_Contains; [done..|].
  apply Her, elem_of_stored_errors_body. by left.
Qed.

(** ** Nothing is ever taken back *)

Lemma exec_extends act a a' : exec act a = Some a' → extends a a'.
Proof.
  destruct act; simpl.
  - intros [= <-]. split; [done|]. simpl. unfold Store. split; set_solver.
  - intros [= <-]. split; [done|]. simpl. unfold Store. split; set_solver.
  - case_decide; [done|]. intros [= <-]. by split.
Qed.

Lemma step_goroutine_extends k x x' :
  step_goroutine k x = Some x' → extends (obj x) (obj x').
Proof.
  unfold step_goroutine. intros Hs.
  destruct (spawned x !! k) as [[[rs err|]|[|act todo]]|]; simplify_eq/=.
  - apply extends_refl.
  - destruct (exec act (obj x)) eqn:E; simplify_eq/=. by eapply exec_extends.
Qed.

Lemma apply_extends e s s' i x :
  apply e s = Some s' → s !! i = Some x →
  ∃ x', s' !! i = Some x' ∧ extends (obj x) (obj x').
Proof.
  intros Ha Hi.
  assert (i < length s) as Hlt by (by eapply lookup_lt_Some).
  destruct e as [r rs|j rs|j f|j k]; simpl in Ha.
  - simplify_eq. exists x. split; [by apply lookup_app_l_Some|apply extends_refl].
  - destruct (s !! j) as [y|] eqn:Hj; simplify_eq.
    destruct (decide (j = i)) as [->|Hne].
    + simplify_eq. eexists. split; [by apply list_lookup_insert_eq|].
      apply Add_extends.
    + exists x. rewrite list_lookup_insert_ne by done.
      split; [done|apply extends_refl].
  - destruct (s !! j) as [y|] eqn:Hj; simplify_eq.
    destruct (decide (j = i)) as [->|Hne].
    + simplify_eq. eexists. split; [by apply list_lookup_insert_eq|].
      by split.
    + exists x. rewrite list_lookup_insert_ne by done.
      split; [done|apply extends_refl].
  - destruct (s !! j) as [y|] eqn:Hj; simplify_eq.
    destruct (step_goroutine k y) as [y'|] eqn:Hs; simplify_eq.
    destruct (decide (j = i)) as [->|Hne].
    + simplify_eq. exists y'. split; [by apply list_lookup_insert_eq|].
      by eapply step_goroutine_extends.
    + exists x. rewrite list_lookup_insert_ne by done.
      split; [done|apply extends_refl].
Qed.

Lemma run_extends es : ∀ s s' i x,
  run es s = Some s' → s !! i = Some x →
  ∃ x', s' !! i = Some x' ∧ extends (obj x) (obj x').
Proof.
  induction es as [|e es IH]; intros s s' i x; simpl.
  - intros [= <-] ?. exists x. split; [done|apply extends_refl].
  - destruct (apply e s) as [s1|] eqn:E; [|done]. intros Hr Hi.
    destruct (apply_extends _ _ _ _ _ E Hi) as (x1 & Hi1 & He1).
    destruct (IH _ _ _ _ Hr Hi1) as (x2 & Hi2 & He2).
    exists x2. split; [done|]. by eapply extends_trans.
Qed.

(** X15. Nothing is ever taken back.  Along every run, from any state, an
    authorizer keeps its controller, its held roles and its recorded
    errors; so a permission or a role that a query has granted is granted
    by every later query that returns. *)
Theorem run_never_forgets
    (es : list event) (s s' : list instance) (i : nat) (x : instance) :
  run es s = Some s' → s !! i = Some x →
  ∃ x', s' !! i = Some x'
        ∧ rbac (obj x') = rbac (obj x)
        ∧ roles (obj x) ⊆ roles (obj x')
        ∧ errors (obj x) ⊆ errors (obj x')
        ∧ (∀ p, HasPermission p (obj x) = Some true → Wait (obj x') = Some () →
                HasPermission p (obj x') = Some true)
        ∧ (∀ role, HasRole role (obj x) = Some true → Wait (obj x') = Some () →
                   HasRole role (obj x') = Some true).
Proof.
  intros Hr Hi.
  destruct (run_extends _ _ _ _ _ Hr Hi) as (x' & Hi' & Hrb & Hro & Her).
  exists x'. split; [done|]. split; [done|]. split; [done|]. split; [done|].
  split.
  - intros p [_ (role & Hin & Hheld)]%HasPermission_Some_true Hw.
    apply HasPermission_Some_true. split; [done|].
    exists role. rewrite Hrb. split; [done|]. by apply Hro.
  - intros role [_ Hb]%HasRole_Some Hw. apply HasRole_Some. split; [done|].
    symmetry in Hb. apply bool_decide_eq_true in Hb.
    symmetry. apply bool_decide_eq_true. by apply Hro.
Qed.

End authorizer_more.

(** * The further properties on the chains of the test file *)

Lemma by_bool_decide (P : Prop) `{!Decision P} : bool_decide P = true → P.
Proof. apply bool_decide_eq_true_1. Defined.

(** The chain that repeats [get]: the error names the permission and its
    two places. *)
Lemma NewRbac_error_provenance_witness :
  (NewRbac [overlapChain]).2 =
    Some "duplicate permission get in role use.Account.Admin"
  ∧ (([overlapChain] = []
      ∧ "duplicate permission get in role use.Account.Admin" =
          "no role chains provided")
     ∨ (∃ rn (i j : nat),
          i < j ∧ (flat_roles [overlapChain]).*1 !! i = Some rn
          ∧ (flat_roles [overlapChain]).*1 !! j = Some rn
          ∧ "duplicate permission get in role use.Account.Admin" =
              "duplicate role " +:+ rn)
     ∨ (∃ c role p (i j : nat),
          c ∈ [overlapChain] ∧ role ∈ roles c ∧ i < j
          ∧ Permissions role !! i = Some p ∧ Permissions role !! j = Some p
          ∧ "duplicate permission get in role use.Account.Admin" =
              "duplicate permission " +:+ p +:+ " in role "
                +:+ flat_name (name c) (Id role))).
Proof.
  split; [vm_compute; reflexivity|].
  apply (NewRbac_error_provenance [overlapChain]). vm_compute. reflexivity.
Defined.

(** The admin role of the test file in the role table. *)
Lemma NewRbac_tables_exact_witness :
  NewRbac [authChain; accountChain] = (Some testRbac, None)
  ∧ (∀ c role, c ∈ [authChain; accountChain] → role ∈ roles c →
       roleToPermissionSet testRbac !! flat_name (name c) (Id role) =
         Some (list_to_set (Permissions role))).
Proof.
  split; [vm_compute; reflexivity|].
  destruct (NewRbac_tables_exact [authChain; accountChain] testRbac None)
    as (_ & _ & H); [vm_compute; reflexivity|exact H].
Defined.

(** Two chains named ["a"]: the answer is read from the second. *)
Lemma ChainHasRoleId_reads_last_chain_witness :
  NewRbac sameNameChains = (Some sameNameRbac, None)
  ∧ (ChainHasRoleId sameNameRbac "a" "x" = true ↔
     ∃ c, last (filter (λ c, name c = "a") sameNameChains) = Some c
          ∧ "x" ∈ Id <$> roles c)
  ∧ (is_Some (chainToRoleIdSet sameNameRbac !! "a") ↔ "a" ∈ name <$> sameNameChains).
Proof.
  split; [vm_compute; reflexivity|].
  apply (ChainHasRoleId_reads_last_chain sameNameChains sameNameRbac None).
  vm_compute. reflexivity.
Defined.

(** No chain of the test file has a role ["Ghost"]. *)
Lemma ChainHasRoleId_absent_witness :
  NewRbac [authChain; accountChain] = (Some testRbac, None)
  ∧ ChainHasRoleId testRbac "use.Account" "Ghost" = false.
Proof.
  split; [vm_compute; reflexivity|].
  apply (ChainHasRoleId_absent [authChain; accountChain] testRbac None).
  - vm_compute. reflexivity.
  - intros c role Hc Hr [Hn Hid].
    assert (Id role ∈ Id <$> roles c) as Hin
      by (apply list_elem_of_fmap; by exists role).
    rewrite Hid in Hin. clear Hr Hid.
    apply elem_of_cons in Hc as [->|Hc].
    { revert Hin. apply (by_bool_decide (_ ∉ _)). vm_compute. reflexivity. }
    apply list_elem_of_singleton in Hc as ->.
    revert Hin. apply (by_bool_decide (_ ∉ _)). vm_compute. reflexivity.
Defined.

(** The chains of the test file have different names: [Member] is found. *)
Lemma ChainHasRoleId_present_witness :
  NewRbac [authChain; accountChain] = (Some testRbac, None)
  ∧ NoDup (name <$> [authChain; accountChain])
  ∧ ChainHasRoleId testRbac (name accountChain) "Member" = true.
Proof.
  split; [vm_compute; reflexivity|].
  assert (NoDup (name <$> [authChain; accountChain])) as Hnd
    by (apply NoDup_by_decide; vm_compute; reflexivity).
  split; [exact Hnd|].
  apply (ChainHasRoleId_present [authChain; accountChain] testRbac None
           accountChain {| Id := "Member"; Permissions := ["get"] |}).
  - vm_compute. reflexivity.
  - exact Hnd.
  - apply list_elem_of_further, list_elem_of_here.
  - apply list_elem_of_here.
Defined.

Section authorizer_more_examples.
Import Authorizer.

(** The admin of the test file may [get], which is given to the member. *)
Lemma later_role_inherits_witness :
  HasPermission "get" (Authorizer testRbac ["use.Account.Admin"]) = Some true.
Proof.
  apply (later_role_inherits "use.Account"
           [("Member", ["get"]); ("Admin", ["update"; "delete"])] 0 1
           "Member" "Admin" ["get"] ["update"; "delete"]
           [authChain; accountChain] testRbac None).
  - lia.
  - reflexivity.
  - reflexivity.
  - apply list_elem_of_further, list_elem_of_here.
  - vm_compute. reflexivity.
  - vm_compute. reflexivity.
  - vm_compute. reflexivity.
  - apply (by_bool_decide (_ ∈ _)). vm_compute. reflexivity.
  - apply list_elem_of_here.
Defined.

(** An authorizer that holds only the unknown role ["ghost"]. *)
Lemma unknown_roles_inert_witness :
  HasPermission "get" (Authorizer testRbac ["ghost"]) = Some false.
Proof.
  apply (unknown_roles_inert [authChain; accountChain] testRbac None).
  - vm_compute. reflexivity.
  - vm_compute. reflexivity.
  - vm_compute. reflexivity.
  - intros role Hin. unfold Authorizer in Hin. rewrite Add_eq in Hin.
    simpl in Hin.
    assert (role = "ghost") as -> by set_solver.
    vm_compute. reflexivity.
Defined.

(** Created with ["a"], then [Add("b")]: ["b"] is held, and no error. *)
Lemma Authorizer_Add_holds_witness :
  HasRole "b" (Add ["b"] (Authorizer testRbac ["a"]))
    = Some (bool_decide ("b" ∈ ["a"] ∨ "b" ∈ ["b"]))
  ∧ Err elements (Add ["b"] (Authorizer testRbac ["a"])) = Some None
  ∧ rbac (Add ["b"] (Authorizer testRbac ["a"])) = testRbac.
Proof.
  apply (Authorizer_Add_holds elements testRbac ["a"] ["b"] "b").
  reflexivity.
Defined.

(** The authorizer of [two_run] whose resolver hangs: the counter is one. *)
Lemma wg_counts_unfinished_witness :
  run two_run [] = Some (outcome two_run)
  ∧ outcome two_run !! 1 = Some (final two_run 1)
  ∧ wg (obj (final two_run 1)) = Z.of_nat (pending (spawned (final two_run 1)))
  ∧ (0 ≤ wg (obj (final two_run 1)))%Z.
Proof.
  split; [vm_compute; reflexivity|]. split; [vm_compute; reflexivity|].
  destruct (wg_counts_unfinished two_run (outcome two_run) 1 (final two_run 1))
    as (H1 & H2 & _).
  - vm_compute. reflexivity.
  - vm_compute. reflexivity.
  - split; [exact H1|exact H2].
Defined.

(** The same authorizer: its queries do not return. *)
Lemma hanging_resolver_blocks_witness :
  run two_run [] = Some (outcome two_run)
  ∧ ∃ x, outcome two_run !! 1 = Some x
         ∧ HasPermission "get" (obj x) = None
         ∧ HasRole "use.Account.Member" (obj x) = None
         ∧ Err elements (obj x) = None.
Proof.
  split; [vm_compute; reflexivity|].
  apply (hanging_resolver_blocks elements
           [ENew testRbac []; ENew testRbac []]
           [EAddAsync 0 (Returns ["use.Account.Member"] None);
            EStep 0 0; EStep 0 0; EStep 0 0] 1).
  vm_compute. reflexivity.
Defined.

(** The resolver of the test file adds the member role and no error. *)
Lemma AddAsync_adds_exactly_witness :
  run member_run [] = Some (outcome member_run)
  ∧ outcome member_run !! 0 = Some (final member_run 0)
  ∧ Wait (obj (final member_run 0)) = Some ()
  ∧ roles (obj (final member_run 0)) =
      list_to_set ["use.Account.Member"]
      ∪ roles (obj (final [ENew testRbac []] 0))
  ∧ errors (obj (final member_run 0)) =
      errors (obj (final [ENew testRbac []] 0)).
Proof.
  split; [vm_compute; reflexivity|]. split; [vm_compute; reflexivity|].
  split; [vm_compute; reflexivity|].
  destruct (AddAsync_adds_exactly [ENew testRbac []]
              [EStep 0 0; EStep 0 0; EStep 0 0] [] 0
              ["use.Account.Member"] None
              (outcome member_run) (outcome [ENew testRbac []])
              (final member_run 0) (final [ENew testRbac []] 0))
    as (_ & H2 & _ & H4).
  - vm_compute. reflexivity.
  - vm_compute. reflexivity.
  - vm_compute. reflexivity.
  - vm_compute. reflexivity.
  - vm_compute. reflexivity.
  - vm_compute. reflexivity.
  - vm_compute. reflexivity.
  - split; [exact H2|]. apply H4; [reflexivity|].
    intros role ->%list_elem_of_singleton.
    apply (by_bool_decide (is_Some _)). vm_compute. reflexivity.
Defined.

(** The resolver that fails with ["boom"]: [Err] says so. *)
Lemma AddAsync_error_in_Err_witness :
  run failing_run [] = Some (outcome failing_run)
  ∧ outcome failing_run !! 0 = Some (final failing_run 0)
  ∧ Wait (obj (final failing_run 0)) = Some ()
  ∧ ∃ text, Err elements (obj (final failing_run 0)) = Some (Some text)
            ∧ Contains text "boom".
Proof.
  split; [vm_compute; reflexivity|]. split; [vm_compute; reflexivity|].
  split; [vm_compute; reflexivity|].
  apply (AddAsync_error_in_Err elements [ENew testRbac []]
           [EStep 0 0; EStep 0 0; EStep 0 0; EStep 0 0] 0
           ["use.Account.Admin"] "boom" (outcome failing_run)).
  - reflexivity.
  - vm_compute. reflexivity.
  - vm_compute. reflexivity.
  - vm_compute. reflexivity.
Defined.

(** A member who is then given the admin role keeps [get]. *)
Lemma run_never_forgets_witness :
  let s' := default [] (run [EAdd 0 ["use.Account.Admin"]] member_only) in
  run [EAdd 0 ["use.Account.Admin"]] member_only = Some s'
  ∧ ∃ x', s' !! 0 = Some x'
          ∧ rbac (obj x') = testRbac
          ∧ (HasPermission "get" (Authorizer testRbac ["use.Account.Member"])
               = Some true →
             Wait (obj x') = Some () → HasPermission "get" (obj x') = Some true).
Proof.
  intros s'. split; [vm_compute; reflexivity|].
  destruct (run_never_forgets [EAdd 0 ["use.Account.Admin"]] member_only s' 0
              {| obj := Authorizer testRbac ["use.Account.Member"];
                 spawned := [] |})
    as (x' & Hi & Hrb & _ & _ & Hp & _).
  - vm_compute. reflexivity.
  - reflexivity.
  - exists x'. split; [exact Hi|]. split; [|apply Hp].
    rewrite Hrb. vm_compute. reflexivity.
Defined.

End authorizer_more_examples.
